(** * Robot movement simulator: a shallow embedding of [robot_sim.py] and
    [movement_table.py]

    The robot walks on positions [0 .. max_pos].  At every time step it
    samples a step size from a discrete distribution, moves (clamped at
    [max_pos]) and takes a noisy reading of the label of the square it
    lands on.  The program computes the distribution of the final position
    both by sampling ([simulate]) and exactly ([compute_exact_posterior]).

    Python values are embedded as follows.
    - [int] is [Z].
    - [float] is a type [R] with the operations of the class [Arith]; the
      program is written once over that interface and run at two
      instances: IEEE binary64 ([float], the arithmetic Python runs) and
      exact rationals ([Qc], the arithmetic of the probabilities the
      floats stand for).
    - a [dict] whose iteration order matters is an association list in
      insertion order; the dicts that are only indexed ([T], [counts]) are
      [gmap]s.
    - a raised exception is the [Raise] branch of [result].
    - the random source is the sequence of its future draws and a cursor. *)

From Stdlib Require Import ZArith QArith Qcanon Floats Uint63 String Lia.
From stdpp Require Import base option list numbers gmap sorting.

Local Open Scope Z_scope.

(** ** Exceptions *)

(** The exceptions of Python that matter here.  [ValueError] is what a
    function raises for an argument it rejects; the program never does. *)
Inductive exn : Set :=
| ValueError
| ZeroDivisionError
| IndexError
| KeyError.

Inductive result (A : Type) : Type :=
| Ok (a : A)
| Raise (e : exn).
Arguments Ok {A} a.
Arguments Raise {A} e.

Definition bindR {A B} (r : result A) (k : A -> result B) : result B :=
  match r with
  | Ok a => k a
  | Raise e => Raise e
  end.

Notation "x <- r ;; k" := (bindR r (fun x => k))
  (at level 100, r at next level, right associativity, only parsing).

(** A [for] loop whose body may raise: the accumulator is the loop's state. *)
Fixpoint for_each {A S} (body : S -> A -> result S) (xs : list A) (s : S)
  : result S :=
  match xs with
  | [] => Ok s
  | x :: xs' => s' <- body s x;; for_each body xs' s'
  end.

(** A comprehension whose element expression may raise. *)
Fixpoint comprehension {A B} (f : A -> result B) (xs : list A)
  : result (list B) :=
  match xs with
  | [] => Ok []
  | x :: xs' => y <- f x;; ys <- comprehension f xs';; Ok (y :: ys)
  end.

(** ** Python containers *)

(** [range(n)]. *)
Definition range (n : Z) : list Z := seqZ 0 n.

(** [d[k]] on a dict kept as an association list. *)
Fixpoint dict_getitem {V} (d : list (Z * V)) (k : Z) : result V :=
  match d with
  | [] => Raise KeyError
  | (k', v) :: d' => if decide (k' = k) then Ok v else dict_getitem d' k
  end.

(** [sorted(d)]: the keys in ascending order. *)
Definition sorted {V} (d : list (Z * V)) : list Z := merge_sort Z.le (d.*1).

(** [l[i]] on a list; a negative index counts from the end. *)
Definition list_getitem {A} (l : list A) (i : Z) : result A :=
  let j := if decide (i < 0) then i + Z.of_nat (length l) else i in
  if decide (0 <= j) then
    match l !! Z.to_nat j with
    | Some x => Ok x
    | None => Raise IndexError
    end
  else Raise IndexError.

(** [l[i] = x]. *)
Definition list_setitem {A} (l : list A) (i : Z) (x : A) : result (list A) :=
  let j := if decide (i < 0) then i + Z.of_nat (length l) else i in
  if decide (0 <= j < Z.of_nat (length l)) then Ok (<[Z.to_nat j := x]> l)
  else Raise IndexError.

(** [m[k]] on a dict kept as a [gmap]. *)
Definition map_getitem {V} (m : gmap Z V) (k : Z) : result V :=
  match m !! k with
  | Some v => Ok v
  | None => Raise KeyError
  end.

(** [counts[k]] on a [collections.Counter]: a missing key counts 0. *)
Definition counter_getitem (counts : gmap Z Z) (k : Z) : Z :=
  default 0 (counts !! k).

(** ** Arithmetic on Python floats *)

Class Arith (R : Type) := {
  f0 : R;                       (* 0.0 *)
  f1 : R;                       (* 1.0 *)
  fadd : R -> R -> R;           (* x + y *)
  fsub : R -> R -> R;           (* x - y *)
  fmul : R -> R -> R;           (* x * y *)
  fabs : R -> R;                (* abs(x) *)
  fleb : R -> R -> bool;        (* x <= y *)
  fltb : R -> R -> bool;        (* x < y *)
  feqb : R -> R -> bool;        (* x == y *)
  int_truediv : Z -> Z -> R     (* a / b on ints, for b nonzero *)
}.

(** [a / b] on ints. *)
Definition truediv `{Arith R} (a b : Z) : result R :=
  if decide (b = 0) then Raise ZeroDivisionError else Ok (int_truediv a b).

(** [sum(xs)]: Python starts from the int 0, and [0 + x] is [0.0 + x]. *)
Definition fsum `{Arith R} (xs : list R) : R := fold_left fadd xs f0.

(** Exact rationals. *)
#[export] Instance Qc_arith : Arith Qc := {
  f0 := 0%Qc;
  f1 := 1%Qc;
  fadd := Qcplus;
  fsub := Qcminus;
  fmul := Qcmult;
  fabs := fun x => if decide (x < 0)%Qc then Qcopp x else x;
  fleb := fun x y => bool_decide (x <= y)%Qc;
  fltb := fun x y => bool_decide (x < y)%Qc;
  feqb := fun x y => bool_decide (x = y);
  int_truediv := fun a b => (Qc_of_Z a / Qc_of_Z b)%Qc
}.

(** IEEE binary64.  [a / b] on ints is the double nearest to the exact
    quotient, ties to even, whatever the size of the ints: the ints are taken
    as floats with an unbounded mantissa and the quotient is rounded once
    ([SFdiv] is the specification of the division of the Standard Library).
    Where the quotient is too large for a double Python raises
    [OverflowError] and this is [inf]; the program only divides a count by
    the number of trials, a quotient of magnitude at most 1. *)
Definition Z2SF (z : Z) : spec_float :=
  match z with
  | Z0 => S754_zero false
  | Zpos p => S754_finite false p 0
  | Zneg p => S754_finite true p 0
  end.

#[export] Instance float_arith : Arith float := {
  f0 := PrimFloat.zero;
  f1 := PrimFloat.one;
  fadd := PrimFloat.add;
  fsub := PrimFloat.sub;
  fmul := PrimFloat.mul;
  fabs := PrimFloat.abs;
  fleb := PrimFloat.leb;
  fltb := PrimFloat.ltb;
  feqb := PrimFloat.eqb;
  int_truediv := fun a b => SF2Prim (SFdiv prec emax (Z2SF a) (Z2SF b))
}.

(** The values of [Prim2SF] (sign, mantissa, exponent) of the floats [x] for
    which [x < 0.0] is false: zeros, NaN, and the positive finite and
    infinite ones. *)
Definition sf_not_negative (x : spec_float) : bool :=
  match x with
  | S754_finite true _ _ | S754_infinity true => false
  | _ => true
  end.

(** The floats without a minus sign. *)
Definition sf_plus (x : spec_float) : bool :=
  match x with
  | S754_finite s _ _ | S754_infinity s | S754_zero s => negb s
  | S754_nan => true
  end.

(** A decimal literal [n/10^k] of the source: the double nearest to the
    decimal, which is also the value of the int quotient. *)
Definition lit `{Arith R} (n d : Z) : R := int_truediv n d.

(** ** The random source *)

Section Simulator.
Context {R : Type} `{Arith R}.

(** A [random.Random] object: the draws it is going to return, each a float
    in [[0, 1)], and the number of draws already consumed. *)
Record Rng := { draws : nat -> R; cursor : nat }.

(** Code that uses the random source and may raise. *)
Definition M (A : Type) : Type := Rng -> result (A * Rng).

Definition ret {A} (a : A) : M A := fun g => Ok (a, g).

Definition bindM {A B} (m : M A) (k : A -> M B) : M B :=
  fun g => match m g with
           | Ok (a, g') => k a g'
           | Raise e => Raise e
           end.

Definition lift {A} (r : result A) : M A :=
  fun g => match r with
           | Ok a => Ok (a, g)
           | Raise e => Raise e
           end.

(** [rng.random()]. *)
Definition random : M R :=
  fun g => Ok (draws g (cursor g),
               {| draws := draws g; cursor := S (cursor g) |}).

Notation "x <~ m ;; k" := (bindM m (fun x => k))
  (at level 100, m at next level, right associativity, only parsing).

(** ** [class RobotSimulator] *)

(** The attributes of a simulator other than [self.rng], which is threaded
    through [M]. *)
Record RobotSimulator := {
  max_pos : Z;
  move_probs : list (Z * R);
  p_correct_wall : R;
  p_correct_window : R;
  _moves : list Z;
  _cum : list R
}.

(** The default move distribution of [__init__]: [{0:0.1, 1:0.7, 2:0.2}]. *)
Definition default_move_probs : list (Z * R) :=
  [(0, lit 1 10); (1, lit 7 10); (2, lit 2 10)].

(** The default of the parameter [max_pos]. *)
Definition default_max_pos : Z := 3.

Definition _build_cdf (probs_dict : list (Z * R)) : result (list Z * list R) :=
  let moves := sorted probs_dict in
  sc <- for_each (fun (sc : R * list R) m =>
                    p <- dict_getitem probs_dict m;;
                    let s := fadd sc.1 p in
                    Ok (s, sc.2 ++ [s]))
                 moves (f0, []);;
  Ok (moves, sc.2).

(** [move_probs] is [None] when the argument is left out; [x or y] is [y]
    when [x] is [None] or an empty dict. *)
Definition __init__ (max_pos : Z) (move_probs : option (list (Z * R)))
    (p_correct_wall p_correct_window : R) : result RobotSimulator :=
  let move_probs :=
    match move_probs with
    | Some (e :: d) => e :: d
    | Some [] | None => default_move_probs
    end in
  mc <- _build_cdf move_probs;;
  Ok {| max_pos := max_pos;
        move_probs := move_probs;
        p_correct_wall := p_correct_wall;
        p_correct_window := p_correct_window;
        _moves := mc.1;
        _cum := mc.2 |}.

(** The loop of [_sample_move]: the first move whose cumulative probability
    reaches [u]. *)
Fixpoint first_reached (u : R) (mcs : list (Z * R)) : option Z :=
  match mcs with
  | [] => None
  | (m, c) :: mcs' => if fleb u c then Some m else first_reached u mcs'
  end.

Definition _sample_move (self : RobotSimulator) : M Z :=
  u <~ random;;
  match first_reached u (zip (_moves self) (_cum self)) with
  | Some m => ret m
  | None => lift (list_getitem (_moves self) (-1))
  end.

Definition true_label_at (pos : Z) : string :=
  if decide (pos `mod` 2 = 0) then "window"%string else "wall"%string.

Definition perceive_label (self : RobotSimulator) (true_label : string)
  : M string :=
  if String.eqb true_label "wall" then
    u <~ random;;
    if fleb u (p_correct_wall self) then ret "wall"%string
    else ret "window"%string
  else
    u <~ random;;
    if fleb u (p_correct_window self) then ret "window"%string
    else ret "wall"%string.

(** A trace entry: [(target, true, perceived)]. *)
Definition trace_entry : Type := Z * string * string.

(** The loop of [run_single], [n] iterations from the state [(pos, trace)]. *)
Fixpoint run_steps (self : RobotSimulator) (n : nat) (pos : Z)
    (trace : list trace_entry) : M (Z * list trace_entry) :=
  match n with
  | O => ret (pos, trace)
  | S n' =>
      intended <~ _sample_move self;;
      let target := Z.min (pos + intended) (max_pos self) in
      let true := true_label_at target in
      perceived <~ perceive_label self true;;
      run_steps self n' target (trace ++ [(target, true, perceived)])
  end.

(** [run_single(n_steps, return_trace=True)]. *)
Definition run_single_trace (self : RobotSimulator) (n_steps : Z)
  : M (Z * list trace_entry) :=
  run_steps self (Z.to_nat n_steps) 0 [].

(** [run_single(n_steps)], with [return_trace] left at [False]. *)
Definition run_single (self : RobotSimulator) (n_steps : Z) : M Z :=
  pt <~ run_single_trace self n_steps;;
  ret pt.1.

(** The loop of [simulate], [k] trials from the counter [counts]. *)
Fixpoint run_trials (self : RobotSimulator) (n_steps : Z) (k : nat)
    (counts : gmap Z Z) : M (gmap Z Z) :=
  match k with
  | O => ret counts
  | S k' =>
      final <~ run_single self n_steps;;
      run_trials self n_steps k'
        (<[final := counter_getitem counts final + 1]> counts)
  end.

Definition simulate (self : RobotSimulator) (n_steps trials : Z)
  : M (list (Z * R)) :=
  counts <~ run_trials self n_steps (Z.to_nat trials) ∅;;
  lift (comprehension
          (fun pos => p <- truediv (counter_getitem counts pos) trials;;
                      Ok (pos, p))
          (range (max_pos self + 1))).

(** The statement [T[pos][target] += pm] for the item [(m, pm)] of
    [move_probs]. *)
Definition add_move (self : RobotSimulator) (pos : Z) (T : gmap Z (gmap Z R))
    (mpm : Z * R) : result (gmap Z (gmap Z R)) :=
  let target := Z.min (pos + mpm.1) (max_pos self) in
  row <- map_getitem T pos;;
  old <- map_getitem row target;;
  Ok (<[pos := <[target := fadd old mpm.2]> row]> T).

(** The transition probabilities [T[pos][next_pos]] built at the start of
    [compute_exact_posterior]. *)
Definition transition_matrix (self : RobotSimulator)
  : result (gmap Z (gmap Z R)) :=
  let T0 : gmap Z (gmap Z R) :=
    list_to_map
      ((fun pos => (pos, list_to_map ((fun s => (s, f0))
                                        <$> range (max_pos self + 1))))
         <$> range (max_pos self + 1)) in
  for_each (fun T pos => for_each (add_move self pos) (move_probs self) T)
           (range (max_pos self + 1)) T0.

(** The statement [new[s] += dist[pos] * T[pos][s]]. *)
Definition add_mass (T : gmap Z (gmap Z R)) (dist : list R) (pos : Z)
    (new : list R) (s : Z) : result (list R) :=
  n <- list_getitem new s;;
  d <- list_getitem dist pos;;
  row <- map_getitem T pos;;
  t <- map_getitem row s;;
  list_setitem new s (fadd n (fmul d t)).

(** The body of the loop over [pos]: positions without mass are skipped. *)
Definition spread (self : RobotSimulator) (T : gmap Z (gmap Z R))
    (dist new : list R) (pos : Z) : result (list R) :=
  d <- list_getitem dist pos;;
  if feqb d f0 then Ok new
  else for_each (add_mass T dist pos) (range (max_pos self + 1)) new.

(** One pass of the dynamic programme: the body of the loop over time. *)
Definition posterior_step (self : RobotSimulator) (T : gmap Z (gmap Z R))
    (dist : list R) : result (list R) :=
  for_each (spread self T dist) (range (max_pos self + 1))
           (replicate (Z.to_nat (max_pos self + 1)) f0).

Fixpoint posterior_steps (self : RobotSimulator) (T : gmap Z (gmap Z R))
    (n : nat) (dist : list R) : result (list R) :=
  match n with
  | O => Ok dist
  | S n' => new <- posterior_step self T dist;;
            posterior_steps self T n' new
  end.

Definition compute_exact_posterior (self : RobotSimulator) (n_steps : Z)
  : result (list (Z * R)) :=
  T <- transition_matrix self;;
  let dist := replicate (Z.to_nat (max_pos self + 1)) f0 in
  dist <- list_setitem dist 0 f1;;
  dist <- posterior_steps self T (Z.to_nat n_steps) dist;;
  comprehension (fun pos => p <- list_getitem dist pos;; Ok (pos, p))
                (range (max_pos self + 1)).

End Simulator.

Arguments RobotSimulator R : clear implicits.
Arguments Rng R : clear implicits.

(** ** [movement_table.py] *)

Module movement_table.
Section Catalog.
Context {R : Type} `{Arith R}.

(** An entry of the catalog: a dict with the keys ["movement"],
    ["p_correct_wall"] and ["p_correct_window"]. *)
Record entry := {
  movement : list (Z * R);
  p_correct_wall : R;
  p_correct_window : R
}.

Definition distribution_sets : list entry :=
  [ {| movement := [(0, lit 7 10); (1, lit 2 10); (2, lit 1 10)];
       p_correct_wall := f1; p_correct_window := f1 |};
    {| movement := [(0, lit 2 10); (1, lit 7 10); (2, lit 1 10)];
       p_correct_wall := f1; p_correct_window := f1 |};
    {| movement := [(0, lit 2 10); (1, lit 1 10); (2, lit 7 10)];
       p_correct_wall := f1; p_correct_window := f1 |};
    {| movement := [(0, lit 7 10); (1, lit 1 10); (2, lit 2 10)];
       p_correct_wall := f1; p_correct_window := f1 |};
    {| movement := [(0, lit 1 10); (1, lit 2 10); (2, lit 7 10)];
       p_correct_wall := f1; p_correct_window := f1 |};
    {| movement := [(0, lit 1 10); (1, lit 7 10); (2, lit 2 10)];
       p_correct_wall := f1; p_correct_window := f1 |} ].

(** The checks of [test_movement_table_schema] on one entry:
    [abs(total - 1.0) < 1e-9] and both sensor parameters in [[0, 1]]. *)
Definition schema_ok (cfg : entry) : bool :=
  fltb (fabs (fsub (fsum ((movement cfg).*2)) f1)) (lit 1 1000000000)
  && (fleb f0 (p_correct_wall cfg) && fleb (p_correct_wall cfg) f1)
  && (fleb f0 (p_correct_window cfg) && fleb (p_correct_window cfg) f1).

End Catalog.
Arguments entry R : clear implicits.
End movement_table.

(** * Functions used to state the properties *)

Section Statements.
Context {R : Type} `{Arith R}.

(** ** The sampler and the trajectory *)

(** The random source after [k] more draws. *)
Definition advance (g : Rng R) (k : nat) : Rng R :=
  {| draws := draws g; cursor := (cursor g + k)%nat |}.

(** The move [_sample_move] returns on the draw [u]. *)
Definition sample_of (self : RobotSimulator R) (u : R) : Z :=
  match first_reached u (zip (_moves self) (_cum self)) with
  | Some m => m
  | None => default 0 (last (_moves self))
  end.

(** The positions a run of [n] steps visits from [pos] when its movement
    draws are [dr c], [dr (c + 2)], [dr (c + 4)], ... *)
Fixpoint targets (self : RobotSimulator R) (dr : nat -> R) (c n : nat) (pos : Z)
  : list Z :=
  match n with
  | O => []
  | S n' =>
      let t := Z.min (pos + sample_of self (dr c)) (max_pos self) in
      t :: targets self dr (S (S c)) n' t
  end.

(** [d[m]] for a key [m] of [d]. *)
Definition prob_of (d : list (Z * R)) (m : Z) : R :=
  match dict_getitem d m with
  | Ok p => p
  | Raise _ => f0
  end.

(** The running sums [_build_cdf] appends for the moves [ms], from [s]. *)
Fixpoint cum_from (d : list (Z * R)) (s : R) (ms : list Z) : list R :=
  match ms with
  | [] => []
  | m :: ms' => let s' := fadd s (prob_of d m) in s' :: cum_from d s' ms'
  end.

(** [move_probs or {0:0.1, 1:0.7, 2:0.2}]. *)
Definition effective (mp : option (list (Z * R))) : list (Z * R) :=
  match mp with
  | Some (e :: d) => e :: d
  | Some [] | None => default_move_probs
  end.

(** ** The transition matrix *)

(** The square a move of [m] from [pos] lands on. *)
Definition target_of (self : RobotSimulator R) (pos m : Z) : Z :=
  Z.min (pos + m) (max_pos self).

(** The sum of [P(m)] over the step sizes [m] that lead from [pos] to [s],
    added up in the order of the dict. *)
Definition T_entry (self : RobotSimulator R) (pos s : Z) : R :=
  fsum ((filter (fun mpm : Z * R => target_of self pos mpm.1 = s)
                (move_probs self)).*2).

(** The items of the dict whose move leads from [pos] to [s], in the order
    of the dict: [T_entry self pos s] is the sum of their probabilities. *)
Definition moves_to (self : RobotSimulator R) (pos s : Z) : list (Z * R) :=
  filter (fun mpm : Z * R => target_of self pos mpm.1 = s) (move_probs self).

(** [T] holds the entry [f p s] at every [p], [s] of [0 .. mx]. *)
Definition matrix_is (mx : Z) (T : gmap Z (gmap Z R)) (f : Z -> Z -> R) : Prop :=
  forall p, 0 <= p <= mx ->
  exists row, T !! p = Some row
              /\ forall s, 0 <= s <= mx -> row !! s = Some (f p s).

(** The entry [(pos, s)] after the moves [l] have been added to [init]. *)
Definition acc_entry (mx pos s : Z) (l : list (Z * R)) (init : R) : R :=
  fold_left (fun acc (mpm : Z * R) =>
               if decide (Z.min (pos + mpm.1) mx = s) then fadd acc mpm.2
               else acc) l init.

(** ** The exact posterior *)

(** The point mass at position 0. *)
Definition point0 (pos : Z) : R := if decide (pos = 0) then f1 else f0.

(** One pass of the dynamic programme on a distribution given as a function:
    [new[s]] is the sum of [dist[pos] * T[pos][s]] over the positions with
    mass, added up in ascending order of [pos]. *)
Definition step_fn (self : RobotSimulator R) (dist : Z -> R) (s : Z) : R :=
  fold_left (fun acc pos =>
               if feqb (dist pos) f0 then acc
               else fadd acc (fmul (dist pos) (T_entry self pos s)))
            (range (max_pos self + 1)) f0.

(** The distribution after [n] passes. *)
Definition posterior_fn (self : RobotSimulator R) (n : nat) : Z -> R :=
  Nat.iter n (step_fn self) point0.

(** One pass of the dynamic programme on a distribution given as the dict
    [compute_exact_posterior] returns: the new value at [s], the sum of
    [pd[pos] * T[pos][s]] over the positions with mass, added up from [0.0]
    in the order of the dict. *)
Definition next_entry (self : RobotSimulator R) (pd : list (Z * R)) (s : Z) : R :=
  fold_left (fun acc (e : Z * R) =>
               if feqb e.2 f0 then acc
               else fadd acc (fmul e.2 (T_entry self e.1 s)))
            pd f0.

(** The list [l] holds [h s] at every index [s] of [0 .. mx]. *)
Definition list_is (mx : Z) (l : list R) (h : Z -> R) : Prop :=
  length l = Z.to_nat (mx + 1)
  /\ forall s, 0 <= s <= mx -> l !! Z.to_nat s = Some (h s).

(** ** The estimator *)

(** The final position of a run of [n] steps whose first draw is [dr c]. *)
Definition final_of (self : RobotSimulator R) (dr : nat -> R) (c n : nat) : Z :=
  default 0 (last (targets self dr c n 0)).

(** The final positions of [k] consecutive runs of [n] steps each. *)
Fixpoint finals (self : RobotSimulator R) (dr : nat -> R) (c n k : nat)
  : list Z :=
  match k with
  | O => []
  | S k' => final_of self dr c n :: finals self dr (c + 2 * n) n k'
  end.

(** The number of runs that ended at [pos]. *)
Definition occurrences (pos : Z) (fs : list Z) : nat :=
  length (filter (fun f => f = pos) fs).

(** The counter after the final positions [fs] have been tallied. *)
Definition tally (counts : gmap Z Z) (fs : list Z) : gmap Z Z :=
  fold_left (fun c f => <[f := counter_getitem c f + 1]> c) fs counts.

(** A random source that returns the values of [us] in order. *)
Definition rng_of_list (us : list R) : Rng R :=
  {| draws := fun n => nth n us f0; cursor := 0 |}.

(** ** Point masses *)

(** The distribution over [0 .. mx] with probability 1 at [q]. *)
Definition point_mass (mx q : Z) : list (Z * R) :=
  (fun pos => (pos, if decide (pos = q) then f1 else f0)) <$> range (mx + 1).

(** [abs(x - y) < 1e-6], the comparison of the test suite. *)
Definition close (x y : R) : bool :=
  fltb (fabs (fsub x y)) (lit 1 1000000).

(** The position after [n] moves of [d] from [q], clamped at [mx]. *)
Definition walk (d mx : Z) (n : nat) (q : Z) : Z :=
  Nat.iter n (fun q => Z.min (q + d) mx) q.

(** ** The sensor and the trace *)

(** The label [perceive_label] returns for the true label [lab] when its
    draw is [u]. *)
Definition seen_of (self : RobotSimulator R) (lab : string) (u : R) : string :=
  if String.eqb lab "wall" then
    if fleb u (p_correct_wall self) then "wall"%string else "window"%string
  else
    if fleb u (p_correct_window self) then "window"%string else "wall"%string.

(** The trace a run of [n] steps appends when it starts at [pos] and its
    draws are [dr c], [dr (c + 1)], ... *)
Fixpoint trace_of (self : RobotSimulator R) (dr : nat -> R) (c n : nat) (pos : Z)
  : list trace_entry :=
  match n with
  | O => []
  | S n' =>
      let t := Z.min (pos + sample_of self (dr c)) (max_pos self) in
      (t, true_label_at t, seen_of self (true_label_at t) (dr (S c)))
        :: trace_of self dr (S (S c)) n' t
  end.

(** The position of a run before its step [i], given the positions [ps] it
    visited. *)
Definition position_before (ps : list Z) (i : nat) : Z := nth i (0 :: ps) 0.

(** ** The cumulative distribution *)

(** The running total [_build_cdf] has reached after the distance [m]: the
    probabilities of the distances of at most [m], added up from [0.0] in
    ascending order of the distance; and the total before [m], over the
    distances below [m]. *)
Definition cdf_le (d : list (Z * R)) (m : Z) : R :=
  fsum (prob_of d <$> filter (fun x => x <= m) (sorted d)).

Definition cdf_lt (d : list (Z * R)) (m : Z) : R :=
  fsum (prob_of d <$> filter (fun x => x < m) (sorted d)).

(** A list of floats none of which is above the next one. *)
Definition ascending (cs : list R) : Prop :=
  Sorted (fun a b => fleb a b = true) cs.

(** ** Signs *)

(** [x < 0] is false. *)
Definition not_negative (x : R) : Prop := fltb x f0 = false.

(** ** The keys of the transition matrix *)

(** No row of [T] has a negative key. *)
Definition neg_free (T : gmap Z (gmap Z R)) : Prop :=
  forall p row s, T !! p = Some row -> s < 0 -> row !! s = None.

End Statements.

(** The facts about [0.0] and [1.0] that the point-mass results rest on.
    They hold in binary64 arithmetic and in exact arithmetic alike. *)
Class UnitLaws (R : Type) `{Arith R} : Prop := {
  fadd_0_0 : fadd f0 f0 = f0;
  fadd_0_1 : fadd f0 f1 = f1;
  fmul_1_0 : fmul f1 f0 = f0;
  fmul_1_1 : fmul f1 f1 = f1;
  feqb_0_0 : feqb f0 f0 = true;
  feqb_1_0 : feqb f1 f0 = false;
  truediv_same : forall n, 0 < n -> int_truediv n n = f1;
  truediv_zero : forall n, 0 < n -> int_truediv 0 n = f0;
  close_0_0 : fltb (fabs (fsub f0 f0)) (lit 1 1000000) = true;
  close_1_1 : fltb (fabs (fsub f1 f1)) (lit 1 1000000) = true
}.

(** Signs: [0.0] and [1.0] are not negative; the sum and the product of two
    floats that are not negative are not negative; neither is the quotient
    of a non-negative int by a positive int.  Proved below for binary64 and
    for exact arithmetic. *)
Class SignLaws (R : Type) `{Arith R} : Prop := {
  f0_not_negative : not_negative f0;
  f1_not_negative : not_negative f1;
  fadd_not_negative :
    forall x y, not_negative x -> not_negative y -> not_negative (fadd x y);
  fmul_not_negative :
    forall x y, not_negative x -> not_negative y -> not_negative (fmul x y);
  truediv_not_negative :
    forall a b, 0 <= a -> 0 < b -> not_negative (int_truediv a b)
}.

(** [<=] is transitive.  Proved below for binary64 and for exact
    arithmetic. *)
Class LeLaws (R : Type) `{Arith R} : Prop := {
  fleb_trans :
    forall x y z, fleb x y = true -> fleb y z = true -> fleb x z = true
}.

(** Sums of floats that are at least [0.0]: [0.0] is one of them, and the
    sum of two of them is at least [0.0] and at least its first term.
    Rounding to nearest is monotone, so this holds in binary64; it is proved
    below for exact arithmetic. *)
Class AddLaws (R : Type) `{Arith R} : Prop := {
  fleb_0_0 : fleb f0 f0 = true;
  fadd_nonneg :
    forall x y, fleb f0 x = true -> fleb f0 y = true ->
                fleb f0 (fadd x y) = true;
  fadd_increasing :
    forall x y, fleb f0 x = true -> fleb f0 y = true ->
                fleb x (fadd x y) = true
}.

(** * Reference inputs *)

Section Reference.
Context {R : Type} `{Arith R}.

(** [RobotSimulator(p_correct_wall=pw, p_correct_window=pc)], the other
    parameters left at their defaults. *)
Definition robot_with (pw pc : R) : RobotSimulator R :=
  {| max_pos := default_max_pos;
     move_probs := default_move_probs;
     p_correct_wall := pw;
     p_correct_window := pc;
     _moves := [0; 1; 2];
     _cum := [fadd f0 (lit 1 10);
              fadd (fadd f0 (lit 1 10)) (lit 7 10);
              fadd (fadd (fadd f0 (lit 1 10)) (lit 7 10)) (lit 2 10)] |}.

(** [RobotSimulator()]. *)
Definition robot : RobotSimulator R := robot_with f1 f1.

(** [RobotSimulator(move_probs={d: 1.0})]. *)
Definition robot_moving (d : Z) : RobotSimulator R :=
  {| max_pos := default_max_pos;
     move_probs := [(d, f1)];
     p_correct_wall := f1;
     p_correct_window := f1;
     _moves := [d];
     _cum := [fadd f0 f1] |}.

(** [RobotSimulator(max_pos=mx)]. *)
Definition robot_on (mx : Z) : RobotSimulator R :=
  {| max_pos := mx;
     move_probs := default_move_probs;
     p_correct_wall := f1;
     p_correct_window := f1;
     _moves := [0; 1; 2];
     _cum := [fadd f0 (lit 1 10);
              fadd (fadd f0 (lit 1 10)) (lit 7 10);
              fadd (fadd (fadd f0 (lit 1 10)) (lit 7 10)) (lit 2 10)] |}.

(** The default distribution with its items in another order:
    [{2: 0.2, 0: 0.1, 1: 0.7}]. *)
Definition reordered_move_probs : list (Z * R) :=
  [(2, lit 2 10); (0, lit 1 10); (1, lit 7 10)].

(** [RobotSimulator(move_probs={2: 0.2, 0: 0.1, 1: 0.7})]. *)
Definition robot_reordered : RobotSimulator R :=
  {| max_pos := default_max_pos;
     move_probs := reordered_move_probs;
     p_correct_wall := f1;
     p_correct_window := f1;
     _moves := [0; 1; 2];
     _cum := [fadd f0 (lit 1 10);
              fadd (fadd f0 (lit 1 10)) (lit 7 10);
              fadd (fadd (fadd f0 (lit 1 10)) (lit 7 10)) (lit 2 10)] |}.

(** [RobotSimulator(move_probs={0: 0.5, 1: 0.4999999999})]: probabilities
    whose sum is within 1e-9 of 1. *)
Definition near_one_move_probs : list (Z * R) :=
  [(0, lit 1 2); (1, lit 4999999999 10000000000)].

Definition robot_near_one : RobotSimulator R :=
  {| max_pos := default_max_pos;
     move_probs := near_one_move_probs;
     p_correct_wall := f1;
     p_correct_window := f1;
     _moves := [0; 1];
     _cum := [fadd f0 (lit 1 2);
              fadd (fadd f0 (lit 1 2)) (lit 4999999999 10000000000)] |}.

(** [RobotSimulator(move_probs={2: 0.3, 1: 0.2, 0: 0.1, 3: 0.4})]: a dict
    that is not in the order of its distances. *)
Definition unsorted_move_probs : list (Z * R) :=
  [(2, lit 3 10); (1, lit 2 10); (0, lit 1 10); (3, lit 4 10)].

Definition robot_unsorted : RobotSimulator R :=
  {| max_pos := default_max_pos;
     move_probs := unsorted_move_probs;
     p_correct_wall := f1;
     p_correct_window := f1;
     _moves := [0; 1; 2; 3];
     _cum := [fadd f0 (lit 1 10);
              fadd (fadd f0 (lit 1 10)) (lit 2 10);
              fadd (fadd (fadd f0 (lit 1 10)) (lit 2 10)) (lit 3 10);
              fadd (fadd (fadd (fadd f0 (lit 1 10)) (lit 2 10)) (lit 3 10))
                   (lit 4 10)] |}.

End Reference.
Arguments robot R {_}.
Arguments robot_moving R {_} d.
Arguments robot_on R {_} mx.
Arguments robot_reordered R {_}.
Arguments robot_near_one R {_}.
Arguments robot_unsorted R {_}.

(** Ten runs of one step: seven movement draws of 0.05, two of 0.5 and one
    of 0.9, every perception draw 0.5. *)
Definition uneven_draws : Rng float :=
  rng_of_list
    [lit 1 20; lit 1 2; lit 1 20; lit 1 2; lit 1 20; lit 1 2; lit 1 20; lit 1 2;
     lit 1 20; lit 1 2; lit 1 20; lit 1 2; lit 1 20; lit 1 2;
     lit 1 2; lit 1 2; lit 1 2; lit 1 2;
     lit 9 10; lit 1 2].

(** Two sources whose movement draws agree and whose perception draws
    differ. *)
Definition draws_a : Rng float :=
  rng_of_list [lit 1 20; lit 1 2; lit 1 2; lit 1 2; lit 9 10; lit 1 2].
Definition draws_b : Rng float :=
  rng_of_list [lit 1 20; lit 9 10; lit 1 2; lit 1 10; lit 9 10; lit 3 10].

Definition draws_q : Rng Qc :=
  rng_of_list [lit 1 20; lit 1 2; lit 1 2; lit 1 2; lit 9 10; lit 1 2].

(** A source whose first draw is the third entry of the cumulative table of
    [{2: 0.3, 1: 0.2, 0: 0.1, 3: 0.4}], and a source whose first draw is
    [0.0]. *)
Definition draws_c : Rng float :=
  rng_of_list [fadd (fadd (fadd f0 (lit 1 10)) (lit 2 10)) (lit 3 10); lit 1 2].
Definition draws_0 : Rng float := rng_of_list [f0; lit 1 2].

(** * Properties *)

(** ** The trajectory simulator *)

Section Trajectory.
Context {R : Type} `{Arith R}.

Lemma list_getitem_last {A} (l : list A) (x : A) :
  last l = Some x -> list_getitem l (-1) = Ok x.
Proof.
  intros Hl. unfold list_getitem.
  destruct l as [|y l]; [discriminate|].
  rewrite last_lookup in Hl.
  destruct (decide (-1 < 0)); [|lia].
  destruct (decide _) as [_|Hn]; [|cbn [length] in Hn; lia].
  replace (Z.to_nat (-1 + Z.of_nat (length (y :: l)))) with (pred (length (y :: l)))
    by (simpl; lia).
  now rewrite Hl.
Qed.

Lemma default_last_cons {A} (a b : A) (l : list A) :
  default a (last (b :: l)) = default b (last l).
Proof.
  destruct l as [|c l]; [done|].
  change (last (b :: c :: l)) with (last (c :: l)).
  destruct (last (c :: l)) eqn:E; [done|]. by apply last_None in E.
Qed.

Lemma sample_move_spec (self : RobotSimulator R) (g : Rng R) :
  _moves self <> [] ->
  _sample_move self g = Ok (sample_of self (draws g (cursor g)), advance g 1).
Proof.
  intros Hne. unfold _sample_move, bindM, random, sample_of, advance.
  replace (cursor g + 1)%nat with (S (cursor g)) by lia.
  destruct (first_reached _ _); [reflexivity|].
  unfold lift. destruct (last (_moves self)) as [x|] eqn:Hl.
  - now rewrite (list_getitem_last _ _ Hl).
  - apply last_None in Hl. contradiction.
Qed.

Lemma perceive_label_spec (self : RobotSimulator R) (lab : string) (g : Rng R) :
  exists seen, perceive_label self lab g = Ok (seen, advance g 1).
Proof.
  unfold perceive_label, bindM, random, ret, advance.
  replace (cursor g + 1)%nat with (S (cursor g)) by lia.
  destruct (String.eqb lab "wall"); destruct (fleb _ _); eauto.
Qed.

Lemma run_steps_spec (self : RobotSimulator R) (n : nat) :
  _moves self <> [] ->
  forall pos trace g,
  exists tr,
    run_steps self n pos trace g
    = Ok ((default pos (last (targets self (draws g) (cursor g) n pos)),
           trace ++ tr),
          advance g (2 * n))
    /\ tr.*1.*1 = targets self (draws g) (cursor g) n pos
    /\ Forall (fun e : trace_entry => e.1.2 = true_label_at e.1.1) tr.
Proof.
  intros Hne. induction n as [|n IH]; intros pos trace g.
  - exists []. simpl. unfold ret, advance. rewrite app_nil_r, Nat.add_0_r.
    destruct g; auto.
  - cbn [run_steps]. unfold bindM at 1. rewrite sample_move_spec by done.
    set (t := Z.min _ _).
    unfold bindM at 1.
    destruct (perceive_label_spec self (true_label_at t) (advance g 1)) as [seen ->].
    destruct (IH t (trace ++ [(t, true_label_at t, seen)]) (advance (advance g 1) 1))
      as (tr & -> & Htr & Hlab).
    exists ((t, true_label_at t, seen) :: tr). split; [|split].
    + cbn [targets]. fold t. f_equal.
      f_equal.
      * f_equal; [|now rewrite <- app_assoc].
        cbn [advance cursor draws].
        replace (cursor g + 1 + 1)%nat with (S (S (cursor g))) by lia.
        now rewrite default_last_cons.
      * unfold advance; cbn. f_equal. lia.
    + cbn [targets fmap list_fmap]. fold t. cbn. f_equal.
      rewrite Htr. cbn. f_equal. lia.
    + constructor; [done|done].
Qed.
End Trajectory.

Section Cdf.
Context {R : Type} `{Arith R}.

Lemma dict_getitem_key {V} (d : list (Z * V)) (k : Z) :
  k ∈ d.*1 -> exists v, dict_getitem d k = Ok v /\ (k, v) ∈ d.
Proof.
  induction d as [|[k' v] d IH]; cbn; intros Hin.
  - by apply elem_of_nil in Hin.
  - destruct (decide (k' = k)) as [->|Hne].
    + exists v. split; [done|]. apply elem_of_cons; auto.
    + apply elem_of_cons in Hin as [->|Hin]; [done|].
      destruct (IH Hin) as (v' & ? & ?). exists v'. split; [done|].
      apply elem_of_cons; auto.
Qed.

Lemma sorted_perm {V} (d : list (Z * V)) : sorted d ≡ₚ d.*1.
Proof. apply merge_sort_Permutation. Qed.

Lemma sorted_Sorted {V} (d : list (Z * V)) : Sorted Z.le (sorted d).
Proof. apply (Sorted_merge_sort Z.le). Qed.

Lemma length_cum_from d s ms : length (cum_from d s ms) = length ms.
Proof. revert s; induction ms; intros; cbn; [done|]. by rewrite IHms. Qed.

Lemma build_loop_spec (d : list (Z * R)) (ms : list Z) :
  Forall (fun m => m ∈ d.*1) ms ->
  forall s acc,
  exists s',
    for_each (fun (sc : R * list R) m =>
                p <- dict_getitem d m;;
                let s := fadd sc.1 p in
                Ok (s, sc.2 ++ [s])) ms (s, acc)
    = Ok (s', acc ++ cum_from d s ms).
Proof.
  induction 1 as [|m ms Hm _ IH]; intros s acc; cbn.
  - exists s. by rewrite app_nil_r.
  - destruct (dict_getitem_key d m Hm) as (v & Hv & _).
    unfold prob_of. rewrite Hv. cbn [bindR].
    destruct (IH (fadd s v) (acc ++ [fadd s v])) as (s' & Hs').
    exists s'. rewrite <- app_assoc in Hs'. exact Hs'.
Qed.

Lemma build_cdf_spec (d : list (Z * R)) :
  _build_cdf d = Ok (sorted d, cum_from d f0 (sorted d)).
Proof.
  assert (Hkeys : Forall (fun m => m ∈ d.*1) (sorted d)).
  { apply Forall_forall. intros m Hm. by rewrite <- (sorted_perm d). }
  destruct (build_loop_spec d (sorted d) Hkeys f0 []) as (s' & Hs').
  unfold _build_cdf. cbv zeta in *. by rewrite Hs'.
Qed.

Lemma init_spec (mx : Z) (mp : option (list (Z * R))) (pw pc : R) :
  __init__ mx mp pw pc
  = Ok {| max_pos := mx;
          move_probs := effective mp;
          p_correct_wall := pw;
          p_correct_window := pc;
          _moves := sorted (effective mp);
          _cum := cum_from (effective mp) f0 (sorted (effective mp)) |}.
Proof.
  unfold __init__. fold (effective mp). by rewrite build_cdf_spec.
Qed.

Lemma effective_nonempty (mp : option (list (Z * R))) : effective mp <> [].
Proof. by destruct mp as [[|e d]|]. Qed.

Lemma sorted_nonempty {V} (d : list (Z * V)) : d <> [] -> sorted d <> [].
Proof.
  intros Hd Hs. pose proof (sorted_perm d) as Hp. rewrite Hs in Hp.
  apply Permutation_nil_l in Hp. by destruct d.
Qed.

Lemma first_reached_elem (u : R) (ms : list Z) (cs : list R) (m : Z) :
  first_reached u (zip ms cs) = Some m -> m ∈ ms.
Proof.
  revert cs. induction ms as [|m' ms IH]; intros [|c cs]; cbn; try done.
  destruct (fleb u c).
  - intros [= ->]. apply elem_of_cons; auto.
  - intros Hm. apply elem_of_cons. right. eauto.
Qed.

Lemma sample_of_elem (self : RobotSimulator R) (u : R) :
  _moves self <> [] -> sample_of self u ∈ _moves self.
Proof.
  intros Hne. unfold sample_of.
  destruct (first_reached _ _) eqn:E.
  - eapply first_reached_elem, E.
  - destruct (last (_moves self)) eqn:Hl.
    + cbn. apply last_Some in Hl as [l' ->]. apply elem_of_app. right.
      by apply list_elem_of_singleton.
    + by apply last_None in Hl.
Qed.

End Cdf.

Section TrajectoryFacts.
Context {R : Type} `{Arith R}.

Lemma targets_ext (self1 self2 : RobotSimulator R) (dr1 dr2 : nat -> R) (n : nat) :
  max_pos self1 = max_pos self2 ->
  _moves self1 = _moves self2 ->
  _cum self1 = _cum self2 ->
  forall c1 c2 pos,
  (forall k, (k < n)%nat -> dr1 (c1 + 2 * k)%nat = dr2 (c2 + 2 * k)%nat) ->
  targets self1 dr1 c1 n pos = targets self2 dr2 c2 n pos.
Proof.
  intros Hmax Hmoves Hcum.
  induction n as [|n IH]; intros c1 c2 pos Hdr; cbn [targets]; [done|].
  assert (Hs : sample_of self1 (dr1 c1) = sample_of self2 (dr2 c2)).
  { unfold sample_of. rewrite Hmoves, Hcum.
    specialize (Hdr 0%nat ltac:(lia)). rewrite !Nat.add_0_r in Hdr.
    by rewrite Hdr. }
  rewrite Hs, Hmax. f_equal. apply IH. intros k Hk.
  specialize (Hdr (S k) ltac:(lia)).
  replace (S (S c1) + 2 * k)%nat with (c1 + 2 * S k)%nat by lia.
  replace (S (S c2) + 2 * k)%nat with (c2 + 2 * S k)%nat by lia.
  done.
Qed.

Lemma targets_monotone_bounded (self : RobotSimulator R) (dr : nat -> R) :
  (forall u, 0 <= sample_of self u) ->
  forall n c pos,
  0 <= pos <= max_pos self ->
  Sorted Z.le (pos :: targets self dr c n pos)
  /\ Forall (fun p => 0 <= p <= max_pos self) (targets self dr c n pos).
Proof.
  intros Hs. induction n as [|n IH]; intros c pos Hpos; cbn [targets].
  - split; [repeat constructor | constructor].
  - set (t := Z.min _ _).
    assert (Ht : pos <= t <= max_pos self).
    { subst t. specialize (Hs (dr c)). lia. }
    destruct (IH (S (S c)) t ltac:(lia)) as [Hsorted Hall].
    split.
    + constructor; [done|]. constructor. lia.
    + constructor; [lia|done].
Qed.

Lemma last_in_range (P : Z -> Prop) (pos : Z) (l : list Z) :
  P pos -> Forall P l -> P (default pos (last l)).
Proof.
  intros Hp Hl. destruct (last l) as [x|] eqn:E; [|done].
  cbn. apply last_Some in E as [l' ->].
  apply Forall_app in Hl as [_ Hx]. by inversion Hx.
Qed.

Lemma init_moves_nonempty (mx : Z) (mp : option (list (Z * R))) (pw pc : R)
    (self : RobotSimulator R) :
  __init__ mx mp pw pc = Ok self -> _moves self <> [].
Proof.
  rewrite init_spec. intros [= <-]. cbn.
  apply sorted_nonempty, effective_nonempty.
Qed.

Lemma init_sample_nonneg (mx : Z) (mp : option (list (Z * R))) (pw pc : R)
    (self : RobotSimulator R) :
  __init__ mx mp pw pc = Ok self ->
  Forall (fun e => 0 <= e.1) (move_probs self) ->
  forall u, 0 <= sample_of self u.
Proof.
  intros Hinit Hnn u.
  pose proof (sample_of_elem self u (init_moves_nonempty _ _ _ _ _ Hinit)) as Hin.
  rewrite init_spec in Hinit. injection Hinit as <-. cbn in *.
  remember (sample_of _ u) as m0 eqn:E. clear E.
  rewrite (sorted_perm (effective mp)) in Hin.
  apply list_elem_of_fmap in Hin as ([m p] & -> & Hin).
  rewrite Forall_forall in Hnn. by apply (Hnn (m, p)).
Qed.

(** C10.  In [run_single], when every distance of the movement distribution
    is a non-negative integer and [max_pos >= 0], the positions visited never
    decrease and all of them, the returned final position included, lie in
    [[0, max_pos]]. *)
Theorem run_single_positions_monotone_bounded
    (mx : Z) (mp : option (list (Z * R))) (pw pc : R) (self : RobotSimulator R)
    (n_steps : Z) (g : Rng R) :
  __init__ mx mp pw pc = Ok self ->
  Forall (fun e => 0 <= e.1) (move_probs self) ->
  0 <= max_pos self ->
  exists pos trace g',
    run_single_trace self n_steps g = Ok ((pos, trace), g')
    /\ run_single self n_steps g = Ok (pos, g')
    /\ Sorted Z.le (0 :: trace.*1.*1)
    /\ Forall (fun p => 0 <= p <= max_pos self) (trace.*1.*1)
    /\ pos = default 0 (last (trace.*1.*1))
    /\ 0 <= pos <= max_pos self.
Proof.
  intros Hinit Hnn Hmax.
  pose proof (init_moves_nonempty _ _ _ _ _ Hinit) as Hne.
  pose proof (init_sample_nonneg _ _ _ _ _ Hinit Hnn) as Hs.
  destruct (run_steps_spec self (Z.to_nat n_steps) Hne 0 [] g)
    as (tr & Hrun & Htr & _).
  destruct (targets_monotone_bounded self (draws g) Hs
              (Z.to_nat n_steps) (cursor g) 0 ltac:(lia)) as [Hsorted Hall].
  exists (default 0 (last (targets self (draws g) (cursor g) (Z.to_nat n_steps) 0))),
    tr, (advance g (2 * Z.to_nat n_steps)).
  unfold run_single, run_single_trace, bindM. rewrite Hrun. cbn [app].
  rewrite Htr. repeat split; try done.
  - apply (last_in_range (fun p => 0 <= p)); [lia|].
    eapply Forall_impl; [exact Hall|]. cbn. lia.
  - apply (last_in_range (fun p => p <= max_pos self)); [lia|].
    eapply Forall_impl; [exact Hall|]. cbn. lia.
Qed.

(** C5.  [run_single] consumes two draws per step, the movement draw first
    and the perception draw second, and the perception draws and the sensor
    probabilities have no influence on the positions: two runs whose
    movement draws agree end at the same position and record the same
    positions in their traces. *)
Theorem run_single_ignores_perception
    (mx : Z) (mp : option (list (Z * R))) (pw1 pc1 pw2 pc2 : R)
    (self1 self2 : RobotSimulator R) (n_steps : Z) (g1 g2 : Rng R) :
  __init__ mx mp pw1 pc1 = Ok self1 ->
  __init__ mx mp pw2 pc2 = Ok self2 ->
  (forall k, (k < Z.to_nat n_steps)%nat ->
             draws g1 (cursor g1 + 2 * k)%nat = draws g2 (cursor g2 + 2 * k)%nat) ->
  exists pos trace1 trace2 g1' g2',
    run_single_trace self1 n_steps g1 = Ok ((pos, trace1), g1')
    /\ run_single_trace self2 n_steps g2 = Ok ((pos, trace2), g2')
    /\ run_single self1 n_steps g1 = Ok (pos, g1')
    /\ run_single self2 n_steps g2 = Ok (pos, g2')
    /\ trace1.*1.*1 = trace2.*1.*1
    /\ trace1.*1.*1 = targets self1 (draws g1) (cursor g1) (Z.to_nat n_steps) 0
    /\ cursor g1' = (cursor g1 + 2 * Z.to_nat n_steps)%nat
    /\ cursor g2' = (cursor g2 + 2 * Z.to_nat n_steps)%nat.
Proof.
  intros Hinit1 Hinit2 Hdr.
  pose proof (init_moves_nonempty _ _ _ _ _ Hinit1) as Hne1.
  pose proof (init_moves_nonempty _ _ _ _ _ Hinit2) as Hne2.
  destruct (run_steps_spec self1 (Z.to_nat n_steps) Hne1 0 [] g1)
    as (tr1 & Hrun1 & Htr1 & _).
  destruct (run_steps_spec self2 (Z.to_nat n_steps) Hne2 0 [] g2)
    as (tr2 & Hrun2 & Htr2 & _).
  assert (Heq : targets self1 (draws g1) (cursor g1) (Z.to_nat n_steps) 0
                = targets self2 (draws g2) (cursor g2) (Z.to_nat n_steps) 0).
  { rewrite init_spec in Hinit1, Hinit2.
    injection Hinit1 as <-. injection Hinit2 as <-.
    by apply targets_ext. }
  rewrite <- Heq in Hrun2, Htr2.
  eexists _, tr1, tr2, _, _.
  unfold run_single, run_single_trace, bindM. rewrite Hrun1, Hrun2. cbn [app].
  repeat split; try done. by rewrite Htr1, Htr2.
Qed.

End TrajectoryFacts.

(** ** The step sampler *)

Section Sampler.
Context {R : Type} `{Arith R}.

Lemma cum_from_lookup (d : list (Z * R)) (ms : list Z) :
  forall (s : R) (i : nat),
  (i < length ms)%nat ->
  cum_from d s ms !! i
  = Some (fold_left (fun s m => fadd s (prob_of d m)) (take (S i) ms) s).
Proof.
  induction ms as [|m ms IH]; intros s i Hi; cbn in *; [lia|].
  destruct i as [|i]; cbn.
  - by rewrite take_0.
  - rewrite IH by lia. done.
Qed.

Lemma first_reached_Some (u : R) (ms : list Z) :
  forall (cs : list R) (m : Z),
  first_reached u (zip ms cs) = Some m ->
  exists i c,
    ms !! i = Some m /\ cs !! i = Some c /\ fleb u c = true
    /\ forall j c', (j < i)%nat -> cs !! j = Some c' -> fleb u c' = false.
Proof.
  induction ms as [|m' ms IH]; intros [|c cs] m; cbn; try done.
  destruct (fleb u c) eqn:E.
  - intros [= ->]. exists 0%nat, c. repeat split; try done. intros; lia.
  - intros Hm. destruct (IH cs m Hm) as (i & c0 & ? & ? & ? & Hlt).
    exists (S i), c0. repeat split; try done.
    intros [|j] c' Hj; cbn; [by intros [= <-]|].
    apply Hlt. lia.
Qed.

Lemma first_reached_None (u : R) (ms : list Z) :
  forall (cs : list R),
  length cs = length ms ->
  first_reached u (zip ms cs) = None ->
  forall c, c ∈ cs -> fleb u c = false.
Proof.
  induction ms as [|m' ms IH]; intros [|c cs] Hlen; cbn in *; try done.
  - intros _ c Hc. by apply elem_of_nil in Hc.
  - destruct (fleb u c) eqn:E; [done|].
    intros Hn c' [->|Hc']%elem_of_cons; [done|].
    eapply IH; eauto.
Qed.

Lemma sorted_last_max (l : list Z) (m : Z) :
  Sorted Z.le l -> last l = Some m -> forall x, x ∈ l -> x <= m.
Proof.
  intros Hs%(Sorted_StronglySorted _) Hl.
  induction Hs as [|a l Hs IH Ha].
  - intros x Hx. by apply elem_of_nil in Hx.
  - destruct l as [|b l].
    + cbn in Hl. injection Hl as <-.
      intros x ->%list_elem_of_singleton. lia.
    + change (last (a :: b :: l)) with (last (b :: l)) in Hl.
      intros x [->|Hx]%elem_of_cons; [|by apply IH].
      rewrite Forall_forall in Ha.
      apply Ha. apply last_Some in Hl as [l' ->].
      apply elem_of_app. right. by apply list_elem_of_singleton.
Qed.

(** C4.  For a non-empty movement distribution the step sampler returns the
    first distance, in ascending order of the distances, whose cumulative
    probability is at least the draw [u]; when no cumulative probability
    reaches [u] it returns the largest distance.  The result is always a
    distance of the distribution. *)
Theorem sample_move_inverse_cdf
    (mx : Z) (mp : list (Z * R)) (pw pc : R) (self : RobotSimulator R) (g : Rng R) :
  mp <> [] ->
  __init__ mx (Some mp) pw pc = Ok self ->
  let u := draws g (cursor g) in
  let moves := _moves self in
  let cum := _cum self in
  Sorted Z.le moves
  /\ moves ≡ₚ mp.*1
  /\ length cum = length moves
  /\ (forall i, (i < length moves)%nat ->
        cum !! i
        = Some (fold_left (fun s m => fadd s (prob_of mp m))
                          (take (S i) moves) f0))
  /\ exists m,
       _sample_move self g = Ok (m, advance g 1)
       /\ m ∈ mp.*1
       /\ ((exists i c,
              moves !! i = Some m /\ cum !! i = Some c /\ fleb u c = true
              /\ forall j c', (j < i)%nat -> cum !! j = Some c' ->
                              fleb u c' = false)
           \/ ((forall c, c ∈ cum -> fleb u c = false)
               /\ last moves = Some m
               /\ forall m', m' ∈ mp.*1 -> m' <= m)).
Proof.
  intros Hne Hinit u moves cum.
  pose proof (init_moves_nonempty _ _ _ _ _ Hinit) as Hmoves.
  pose proof (sample_move_spec self g Hmoves) as Hsample.
  pose proof (sample_of_elem self u Hmoves) as Helem.
  assert (Heff : effective (Some mp) = mp) by (by destruct mp).
  rewrite init_spec, Heff in Hinit. injection Hinit as <-.
  cbn [_moves _cum] in *.
  subst moves cum.
  split; [apply sorted_Sorted|].
  split; [apply sorted_perm|].
  split; [apply length_cum_from|].
  split; [intros i Hi; by apply cum_from_lookup|].
  exists (sample_of {| max_pos := mx; move_probs := mp; p_correct_wall := pw;
                       p_correct_window := pc; _moves := sorted mp;
                       _cum := cum_from mp f0 (sorted mp) |} u).
  split; [exact Hsample|].
  split; [by rewrite <- (sorted_perm mp)|].
  unfold sample_of. cbn [_moves _cum].
  destruct (first_reached u _) as [m|] eqn:E.
  - left. by apply first_reached_Some.
  - right.
    split; [eapply first_reached_None; [apply length_cum_from|exact E]|].
    destruct (last (sorted mp)) as [m|] eqn:Hl; [|by apply last_None in Hl].
    cbn. split; [done|]. intros m' Hm'.
    apply (sorted_last_max (sorted mp)); [apply sorted_Sorted|done|].
    by rewrite (sorted_perm mp).
Qed.

End Sampler.

Section Transition.
Context {R : Type} `{Arith R}.

Lemma elem_of_range (n k : Z) : k ∈ range n <-> 0 <= k < n.
Proof. unfold range. rewrite elem_of_seqZ. lia. Qed.

Lemma NoDup_range (n : Z) : NoDup (range n).
Proof. apply NoDup_seqZ. Qed.

Lemma lookup_table {V} (n : Z) (g : Z -> V) (k : Z) :
  0 <= k < n ->
  (list_to_map ((fun i => (i, g i)) <$> range n) : gmap Z V) !! k = Some (g k).
Proof.
  intros Hk. apply elem_of_list_to_map_1.
  - rewrite <- list_fmap_compose.
    rewrite (list_fmap_ext _ id (range n)) by done.
    rewrite list_fmap_id. apply NoDup_range.
  - apply list_elem_of_fmap. exists k. split; [done|]. by apply elem_of_range.
Qed.

Lemma matrix_init (mx : Z) :
  matrix_is mx
    (list_to_map
       ((fun pos => (pos, list_to_map ((fun s => (s, f0)) <$> range (mx + 1))))
          <$> range (mx + 1)))
    (fun _ _ => f0).
Proof.
  intros p Hp. eexists. split.
  - apply (lookup_table (mx + 1) (fun _ => _) p). lia.
  - intros s Hs. apply (lookup_table (mx + 1) (fun _ => f0) s). lia.
Qed.

Lemma acc_entry_filter (mx pos s : Z) (l : list (Z * R)) (init : R) :
  acc_entry mx pos s l init
  = fold_left fadd
      ((filter (fun mpm : Z * R => Z.min (pos + mpm.1) mx = s) l).*2) init.
Proof.
  unfold acc_entry. revert init.
  induction l as [|[m pm] l IH]; intros init; [done|].
  rewrite filter_cons. cbn [fold_left fst snd].
  destruct (decide _); cbn; apply IH.
Qed.

Lemma row_loop (self : RobotSimulator R) (pos : Z) (l : list (Z * R)) :
  let mx := max_pos self in
  0 <= pos <= mx ->
  Forall (fun e => 0 <= e.1) l ->
  forall T f,
  matrix_is mx T f ->
  exists T',
    for_each
      (add_move self pos) l T = Ok T'
    /\ matrix_is mx T'
         (fun p s => if decide (p = pos) then acc_entry mx pos s l (f p s)
                     else f p s).
Proof.
  intros mx Hpos. induction 1 as [|[m pm] l Hm _ IH]; intros T f HT.
  - exists T. split; [done|]. intros p Hp.
    destruct (HT p Hp) as (row & Hrow & Hs). exists row. split; [done|].
    intros s Hs'. rewrite (Hs s Hs'). cbn. by destruct (decide _).
  - cbn [for_each]. cbn in Hm.
    destruct (HT pos Hpos) as (row & Hrow & Hent).
    set (target := Z.min (pos + m) mx).
    assert (Htgt : 0 <= target <= mx) by (subst target; lia).
    unfold add_move at 1. cbv zeta. cbn [fst snd]. fold mx target.
    unfold map_getitem at 1. rewrite Hrow. cbn [bindR].
    unfold map_getitem at 1. rewrite (Hent target Htgt). cbn [bindR].
    edestruct (IH (<[pos := <[target := fadd (f pos target) pm]> row]> T)
                  (fun p s => if decide (p = pos /\ s = target)
                              then fadd (f p s) pm else f p s))
      as (T' & HT' & Hmod).
    { intros p Hp. destruct (decide (p = pos)) as [->|Hne].
      - eexists. split; [apply lookup_insert_eq|].
        intros s Hs. destruct (decide (s = target)) as [->|Hne].
        + rewrite lookup_insert_eq. by rewrite decide_True.
        + rewrite lookup_insert_ne by done. rewrite (Hent s Hs).
          rewrite decide_False; [done|]. intros [_ ?]. done.
      - destruct (HT p Hp) as (row' & Hrow' & Hent').
        exists row'. split; [by rewrite lookup_insert_ne|].
        intros s Hs. rewrite (Hent' s Hs).
        rewrite decide_False; [done|]. intros [? _]. done. }
    exists T'. split; [exact HT'|].
    intros p Hp. destruct (Hmod p Hp) as (row' & Hrow' & Hent').
    exists row'. split; [done|]. intros s Hs. rewrite (Hent' s Hs).
    f_equal. destruct (decide (p = pos)) as [->|Hne]; [|by rewrite decide_False by tauto].
    cbn. fold target. destruct (decide (target = s)) as [<-|Hne].
    + by rewrite decide_True.
    + rewrite decide_False; [done|]. intros [_ ?]. done.
Qed.

Lemma matrix_loop (self : RobotSimulator R) (ps : list Z) :
  Forall (fun e => 0 <= e.1) (move_probs self) ->
  NoDup ps ->
  Forall (fun p => 0 <= p <= max_pos self) ps ->
  forall T f,
  matrix_is (max_pos self) T f ->
  exists T',
    for_each
      (fun T pos =>
         for_each (add_move self pos) (move_probs self) T) ps T = Ok T'
    /\ matrix_is (max_pos self) T'
         (fun p s => if decide (p ∈ ps)
                     then acc_entry (max_pos self) p s (move_probs self) (f p s)
                     else f p s).
Proof.
  intros Hnn Hnd. induction Hnd as [|pos ps Hnotin Hnd IH]; intros Hps T f HT.
  - exists T. split; [done|]. intros p Hp.
    destruct (HT p Hp) as (row & ? & Hent). exists row. split; [done|].
    intros s Hs. rewrite (Hent s Hs). rewrite decide_False; [done|].
    apply not_elem_of_nil.
  - apply Forall_cons in Hps as [Hpos Hps]. cbn [for_each].
    destruct (row_loop self pos (move_probs self) Hpos Hnn T f HT)
      as (T1 & -> & HT1). cbn [bindR].
    destruct (IH Hps T1 _ HT1) as (T' & HT' & Hmod).
    exists T'. split; [exact HT'|].
    intros p Hp. destruct (Hmod p Hp) as (row & ? & Hent).
    exists row. split; [done|]. intros s Hs. rewrite (Hent s Hs). f_equal.
    destruct (decide (p = pos)) as [->|Hne].
    + rewrite decide_False by done. by rewrite decide_True by (apply elem_of_cons; auto).
    + destruct (decide (p ∈ ps)).
      * by rewrite decide_True by (apply elem_of_cons; auto).
      * rewrite decide_False; [done|]. intros [?|?]%elem_of_cons; done.
Qed.

(** The matrix built by [compute_exact_posterior], over any arithmetic. *)
Lemma transition_matrix_spec (self : RobotSimulator R) :
  Forall (fun e => 0 <= e.1) (move_probs self) ->
  exists T, transition_matrix self = Ok T
            /\ matrix_is (max_pos self) T (T_entry self).
Proof.
  intros Hnn.
  destruct (matrix_loop self (range (max_pos self + 1)) Hnn
              (NoDup_range _)) with (f := fun (_ _ : Z) => f0)
              (T := (list_to_map
       ((fun pos => (pos, list_to_map ((fun s => (s, f0)) <$> range (max_pos self + 1))))
          <$> range (max_pos self + 1)) : gmap Z (gmap Z R)))
    as (T & HT & Hmod).
  - apply Forall_forall. intros p Hp%elem_of_range. lia.
  - apply matrix_init.
  - exists T. split; [exact HT|].
    intros p Hp. destruct (Hmod p Hp) as (row & ? & Hent).
    exists row. split; [done|]. intros s Hs. rewrite (Hent s Hs). f_equal.
    rewrite decide_True by (apply elem_of_range; lia).
    apply acc_entry_filter.
Qed.

End Transition.

Section Posterior.
Context {R : Type} `{Arith R}.

Lemma list_getitem_is (mx : Z) (l : list R) (h : Z -> R) (s : Z) :
  list_is mx l h -> 0 <= s <= mx -> list_getitem l s = Ok (h s).
Proof.
  intros [_ Hl] Hs. unfold list_getitem.
  destruct (decide (s < 0)); [lia|].
  destruct (decide (0 <= s)); [|lia].
  by rewrite (Hl s Hs).
Qed.

Lemma list_setitem_is (mx : Z) (l : list R) (h : Z -> R) (s : Z) (x : R) :
  list_is mx l h -> 0 <= s <= mx ->
  list_setitem l s x = Ok (<[Z.to_nat s := x]> l)
  /\ list_is mx (<[Z.to_nat s := x]> l)
       (fun s' => if decide (s' = s) then x else h s').
Proof.
  intros [Hlen Hl] Hs. unfold list_setitem.
  destruct (decide (s < 0)); [lia|].
  destruct (decide (0 <= s < Z.of_nat (length l))); [|lia].
  split; [done|]. split; [by rewrite length_insert|].
  intros s' Hs'. destruct (decide (s' = s)) as [->|Hne].
  - apply list_lookup_insert_eq. lia.
  - rewrite list_lookup_insert_ne by lia. by apply Hl.
Qed.

Lemma list_is_ext (mx : Z) (l : list R) (h h' : Z -> R) :
  list_is mx l h -> (forall s, 0 <= s <= mx -> h s = h' s) -> list_is mx l h'.
Proof.
  intros [Hlen Hl] Hext. split; [done|]. intros s Hs.
  rewrite (Hl s Hs). f_equal. by apply Hext.
Qed.

Lemma add_mass_loop (mx : Z) (T : gmap Z (gmap Z R)) (t : Z -> Z -> R)
    (dist : list R) (delta : Z -> R) (pos : Z) (xs : list Z) :
  matrix_is mx T t ->
  list_is mx dist delta ->
  0 <= pos <= mx ->
  NoDup xs ->
  Forall (fun s => 0 <= s <= mx) xs ->
  forall new h,
  list_is mx new h ->
  exists new',
    for_each (add_mass T dist pos) xs new = Ok new'
    /\ list_is mx new'
         (fun s => if decide (s ∈ xs)
                   then fadd (h s) (fmul (delta pos) (t pos s)) else h s).
Proof.
  intros HT Hdist Hpos Hnd.
  induction Hnd as [|s xs Hnotin Hnd IH]; intros Hxs new h Hnew.
  - exists new. split; [done|]. eapply list_is_ext; [exact Hnew|].
    intros s _. rewrite decide_False; [done|]. apply not_elem_of_nil.
  - apply Forall_cons in Hxs as [Hs Hxs]. cbn [for_each].
    unfold add_mass at 1.
    rewrite (list_getitem_is mx new h s Hnew Hs). cbn [bindR].
    rewrite (list_getitem_is mx dist delta pos Hdist Hpos). cbn [bindR].
    destruct (HT pos Hpos) as (row & Hrow & Hent).
    unfold map_getitem at 1. rewrite Hrow. cbn [bindR].
    unfold map_getitem at 1. rewrite (Hent s Hs). cbn [bindR].
    destruct (list_setitem_is mx new h s
                (fadd (h s) (fmul (delta pos) (t pos s))) Hnew Hs)
      as [-> Hnew1]. cbn [bindR].
    destruct (IH Hxs _ _ Hnew1) as (new' & Hrun & Hnew').
    exists new'. split; [exact Hrun|].
    eapply list_is_ext; [exact Hnew'|]. intros s' _. cbn.
    destruct (decide (s' = s)) as [->|Hne].
    + rewrite decide_False by done. by rewrite decide_True by (apply elem_of_cons; auto).
    + destruct (decide (s' ∈ xs)).
      * by rewrite decide_True by (apply elem_of_cons; auto).
      * rewrite decide_False; [done|]. intros [?|?]%elem_of_cons; done.
Qed.

Lemma spread_spec (self : RobotSimulator R) (T : gmap Z (gmap Z R))
    (t : Z -> Z -> R) (dist : list R) (delta : Z -> R) (pos : Z)
    (new : list R) (h : Z -> R) :
  matrix_is (max_pos self) T t ->
  list_is (max_pos self) dist delta ->
  0 <= pos <= max_pos self ->
  list_is (max_pos self) new h ->
  exists new',
    spread self T dist new pos = Ok new'
    /\ list_is (max_pos self) new'
         (fun s => if feqb (delta pos) f0 then h s
                   else fadd (h s) (fmul (delta pos) (t pos s))).
Proof.
  intros HT Hdist Hpos Hnew. unfold spread.
  rewrite (list_getitem_is _ dist delta pos Hdist Hpos). cbn [bindR].
  destruct (feqb (delta pos) f0); [by exists new|].
  destruct (add_mass_loop (max_pos self) T t dist delta pos
              (range (max_pos self + 1)) HT Hdist Hpos (NoDup_range _))
    with (new := new) (h := h) as (new' & Hrun & Hnew'); [|done|].
  { apply Forall_forall. intros s Hs%elem_of_range. lia. }
  exists new'. split; [done|].
  eapply list_is_ext; [exact Hnew'|]. intros s Hs. cbn.
  by rewrite decide_True by (apply elem_of_range; lia).
Qed.

Lemma spread_loop (self : RobotSimulator R) (T : gmap Z (gmap Z R))
    (t : Z -> Z -> R) (dist : list R) (delta : Z -> R) (ps : list Z) :
  matrix_is (max_pos self) T t ->
  list_is (max_pos self) dist delta ->
  Forall (fun p => 0 <= p <= max_pos self) ps ->
  forall new h,
  list_is (max_pos self) new h ->
  exists new',
    for_each (spread self T dist) ps new = Ok new'
    /\ list_is (max_pos self) new'
         (fun s => fold_left
                     (fun acc pos =>
                        if feqb (delta pos) f0 then acc
                        else fadd acc (fmul (delta pos) (t pos s)))
                     ps (h s)).
Proof.
  intros HT Hdist. induction 1 as [|pos ps Hpos _ IH]; intros new h Hnew.
  - by exists new.
  - cbn [for_each].
    destruct (spread_spec self T t dist delta pos new h HT Hdist Hpos Hnew)
      as (new1 & -> & Hnew1). cbn [bindR].
    destruct (IH _ _ Hnew1) as (new' & Hrun & Hnew').
    exists new'. split; [exact Hrun|].
    eapply list_is_ext; [exact Hnew'|]. intros s _. cbn [fold_left].
    by destruct (feqb (delta pos) f0).
Qed.

Lemma list_is_replicate (mx : Z) :
  list_is mx (replicate (Z.to_nat (mx + 1)) f0) (fun _ => f0).
Proof.
  split; [apply length_replicate|]. intros s Hs.
  apply lookup_replicate_2. lia.
Qed.

Lemma posterior_step_spec (self : RobotSimulator R) (T : gmap Z (gmap Z R))
    (dist : list R) (delta : Z -> R) :
  matrix_is (max_pos self) T (T_entry self) ->
  list_is (max_pos self) dist delta ->
  exists new,
    posterior_step self T dist = Ok new
    /\ list_is (max_pos self) new (step_fn self delta).
Proof.
  intros HT Hdist. unfold posterior_step.
  destruct (spread_loop self T (T_entry self) dist delta
              (range (max_pos self + 1)) HT Hdist)
    with (new := replicate (Z.to_nat (max_pos self + 1)) (f0 : R))
         (h := fun _ : Z => (f0 : R)) as (new & Hrun & Hnew).
  - apply Forall_forall. intros s Hs%elem_of_range. lia.
  - apply list_is_replicate.
  - by exists new.
Qed.

Lemma posterior_steps_spec (self : RobotSimulator R) (T : gmap Z (gmap Z R))
    (n : nat) :
  matrix_is (max_pos self) T (T_entry self) ->
  forall dist delta,
  list_is (max_pos self) dist delta ->
  exists dist',
    posterior_steps self T n dist = Ok dist'
    /\ list_is (max_pos self) dist' (Nat.iter n (step_fn self) delta).
Proof.
  intros HT. induction n as [|n IH]; intros dist delta Hdist.
  - by exists dist.
  - cbn [posterior_steps].
    destruct (posterior_step_spec self T dist delta HT Hdist)
      as (new & -> & Hnew). cbn [bindR].
    destruct (IH new _ Hnew) as (dist' & Hrun & Hdist').
    exists dist'. split; [exact Hrun|]. by rewrite Nat.iter_succ_r.
Qed.

Lemma comprehension_is (mx : Z) (l : list R) (h : Z -> R) (xs : list Z) :
  list_is mx l h ->
  Forall (fun s => 0 <= s <= mx) xs ->
  comprehension (fun pos => p <- list_getitem l pos;; Ok (pos, p)) xs
  = Ok ((fun pos => (pos, h pos)) <$> xs).
Proof.
  intros Hl. induction 1 as [|s xs Hs _ IH]; [done|].
  cbn [comprehension]. rewrite (list_getitem_is mx l h s Hl Hs). cbn [bindR].
  by rewrite IH.
Qed.

(** The exact posterior in closed form, over any arithmetic. *)
Lemma compute_exact_posterior_spec (self : RobotSimulator R) (n_steps : Z) :
  0 <= max_pos self ->
  Forall (fun e => 0 <= e.1) (move_probs self) ->
  compute_exact_posterior self n_steps
  = Ok ((fun pos => (pos, posterior_fn self (Z.to_nat n_steps) pos))
          <$> range (max_pos self + 1)).
Proof.
  intros Hmx Hnn. unfold compute_exact_posterior.
  destruct (transition_matrix_spec self Hnn) as (T & -> & HT). cbn [bindR].
  destruct (list_setitem_is (max_pos self) _ _ 0 f1
              (list_is_replicate (max_pos self)) ltac:(lia)) as [-> Hd0].
  cbn [bindR].
  destruct (posterior_steps_spec self T (Z.to_nat n_steps) HT _ _ Hd0)
    as (dist & -> & Hdist). cbn [bindR].
  apply (comprehension_is (max_pos self)); [exact Hdist|].
  apply Forall_forall. intros s Hs%elem_of_range. lia.
Qed.

End Posterior.

(** ** Exact arithmetic: the totals of the transition matrix and of the
    posterior

    What the sums are when no addition rounds: a row of the matrix sums to
    the total of the movement distribution, and the posterior after [n]
    steps to the [n]-th power of that total. *)

Section Exact.
Local Open Scope Qc_scope.

Implicit Types (l : list Qc) (xs ps : list Z) (g h : Z -> Qc).

Lemma qsum_acc l (a : Qc) : fold_left Qcplus l a = a + fsum l.
Proof.
  unfold fsum. cbn. revert a.
  induction l as [|x l IH]; intros a; cbn.
  - by rewrite Qcplus_0_r.
  - rewrite IH, (IH (0 + x)). ring.
Qed.

Lemma qsum_cons (x : Qc) l : fsum (x :: l) = x + fsum l.
Proof. unfold fsum at 1. cbn. rewrite qsum_acc. ring. Qed.

Lemma qsum_ext xs g h :
  (forall x, x ∈ xs -> g x = h x) -> fsum (g <$> xs) = fsum (h <$> xs).
Proof.
  intros Hgh. f_equal. apply list_fmap_ext. intros i x Hx.
  apply Hgh. by eapply list_elem_of_lookup_2.
Qed.

Lemma qsum_plus xs g h :
  fsum ((fun x => g x + h x) <$> xs) = fsum (g <$> xs) + fsum (h <$> xs).
Proof.
  induction xs as [|x xs IH]; [done|].
  cbn [fmap list_fmap]. rewrite !qsum_cons.
  change (list_fmap Z Qc ?f xs) with (f <$> xs). rewrite IH. ring.
Qed.

Lemma qsum_scale_l xs (c : Qc) g :
  fsum ((fun x => c * g x) <$> xs) = c * fsum (g <$> xs).
Proof.
  induction xs as [|x xs IH]; cbn [fmap list_fmap].
  - unfold fsum. cbn. ring.
  - rewrite !qsum_cons. change (list_fmap Z Qc ?f xs) with (f <$> xs).
    rewrite IH. ring.
Qed.

Lemma qsum_scale_r xs (c : Qc) g :
  fsum ((fun x => g x * c) <$> xs) = c * fsum (g <$> xs).
Proof.
  rewrite <- qsum_scale_l. apply qsum_ext. intros; ring.
Qed.

Lemma qsum_zero xs : fsum ((fun _ => 0) <$> xs) = 0.
Proof.
  induction xs as [|x xs IH]; [done|].
  cbn [fmap list_fmap]. rewrite qsum_cons.
  change (list_fmap Z Qc ?f xs) with (f <$> xs). rewrite IH. ring.
Qed.

Lemma qsum_indicator xs (a : Z) (v : Qc) :
  NoDup xs ->
  fsum ((fun s => if decide (a = s) then v else 0) <$> xs)
  = if decide (a ∈ xs) then v else 0.
Proof.
  induction 1 as [|x xs Hnotin Hnd IH]; [done|].
  cbn [fmap list_fmap]. rewrite qsum_cons.
  change (list_fmap Z Qc ?f xs) with (f <$> xs). rewrite IH.
  destruct (decide (a = x)) as [->|Hne].
  - rewrite decide_False by done.
    rewrite decide_True by (apply elem_of_cons; auto). ring.
  - destruct (decide (a ∈ xs)).
    + rewrite decide_True by (apply elem_of_cons; auto). ring.
    + rewrite decide_False; [ring|]. intros [?|?]%elem_of_cons; done.
Qed.

Lemma qsum_exchange xs ps (a : Z -> Z -> Qc) :
  fsum ((fun s => fsum ((fun p => a p s) <$> ps)) <$> xs)
  = fsum ((fun p => fsum ((fun s => a p s) <$> xs)) <$> ps).
Proof.
  induction xs as [|x xs IH]; cbn [fmap list_fmap].
  - by rewrite qsum_zero.
  - rewrite qsum_cons. change (list_fmap Z Qc ?f xs) with (f <$> xs).
    rewrite IH. rewrite <- qsum_plus. apply qsum_ext. intros p _.
    by rewrite qsum_cons.
Qed.

(** Each move of the distribution lands on exactly one square of a row, so
    a row of the matrix adds up to the total of the distribution. *)
Lemma entries_sum (mx p : Z) (d : list (Z * Qc)) :
  (0 <= p <= mx)%Z ->
  Forall (fun e => 0 <= e.1)%Z d ->
  fsum ((fun s => fsum ((filter (fun mpm : Z * Qc =>
                                   Z.min (p + mpm.1) mx = s) d).*2))
          <$> range (mx + 1))
  = fsum (d.*2).
Proof.
  intros Hp. induction 1 as [|[m pm] d Hm _ IH]; cbn [fmap list_fmap].
  - apply qsum_zero.
  - change (list_fmap _ _ ?f d) with (f <$> d).
    rewrite qsum_cons, <- IH. cbn [fst snd] in *.
    transitivity
      (fsum ((fun s => (if decide (Z.min (p + m) mx = s) then pm else 0)
                       + fsum ((filter (fun mpm : Z * Qc =>
                                          Z.min (p + mpm.1) mx = s) d).*2))
               <$> range (mx + 1))).
    + apply qsum_ext. intros s _. rewrite filter_cons. cbn [fst snd].
      destruct (decide _); [|ring].
      cbn [fmap list_fmap]. by rewrite qsum_cons.
    + rewrite qsum_plus, qsum_indicator by apply NoDup_range.
      by rewrite decide_True by (apply elem_of_range; lia).
Qed.

Lemma row_sum (self : RobotSimulator Qc) (p : Z) :
  (0 <= p <= max_pos self)%Z ->
  Forall (fun e => 0 <= e.1)%Z (move_probs self) ->
  fsum (T_entry self p <$> range (max_pos self + 1))
  = fsum ((move_probs self).*2).
Proof. intros Hp Hnn. by apply (entries_sum (max_pos self) p). Qed.

Lemma skip_fold (delta t : Z -> Qc) ps (a : Qc) :
  fold_left (fun acc pos =>
               if feqb (delta pos) f0 then acc
               else fadd acc (fmul (delta pos) (t pos))) ps a
  = a + fsum ((fun p => delta p * t p) <$> ps).
Proof.
  revert a. induction ps as [|p ps IH]; intros a.
  - cbn. unfold fsum. cbn. ring.
  - cbn [fold_left fmap list_fmap].
    change (list_fmap _ _ ?f ps) with (f <$> ps).
    rewrite IH, qsum_cons. cbn [feqb fadd fmul Qc_arith f0].
    case_bool_decide as Hz; [rewrite Hz|]; ring.
Qed.

(** In exact arithmetic skipping the positions without mass changes
    nothing: a pass is the matrix-vector product. *)
Lemma step_fn_sum (self : RobotSimulator Qc) (delta : Z -> Qc) (s : Z) :
  step_fn self delta s
  = fsum ((fun p => delta p * T_entry self p s) <$> range (max_pos self + 1)).
Proof.
  unfold step_fn.
  rewrite (skip_fold delta (fun p => T_entry self p s)). cbn. ring.
Qed.

Lemma step_fn_total (self : RobotSimulator Qc) (delta : Z -> Qc) :
  Forall (fun e => 0 <= e.1)%Z (move_probs self) ->
  fsum (step_fn self delta <$> range (max_pos self + 1))
  = fsum ((move_probs self).*2) * fsum (delta <$> range (max_pos self + 1)).
Proof.
  intros Hnn.
  rewrite (qsum_ext _ _ (fun s => fsum ((fun p => delta p * T_entry self p s)
                                          <$> range (max_pos self + 1))))
    by (intros; apply step_fn_sum).
  rewrite qsum_exchange. rewrite <- qsum_scale_r. apply qsum_ext.
  intros p Hp%elem_of_range. rewrite qsum_scale_l.
  rewrite row_sum by (done || lia). done.
Qed.

Lemma point0_total (mx : Z) : (0 <= mx)%Z -> fsum (point0 <$> range (mx + 1)) = 1.
Proof.
  intros Hmx.
  rewrite (qsum_ext _ _ (fun s => if decide (0%Z = s) then 1 else 0)).
  - rewrite qsum_indicator by apply NoDup_range.
    by rewrite decide_True by (apply elem_of_range; lia).
  - intros s _. unfold point0. cbn.
    destruct (decide (s = 0%Z)) as [->|]; [done|]. by rewrite decide_False.
Qed.

(** After [n] passes the total mass is the [n]-th power of the total of the
    movement distribution. *)
Lemma posterior_fn_total (self : RobotSimulator Qc) (n : nat) :
  (0 <= max_pos self)%Z ->
  Forall (fun e => 0 <= e.1)%Z (move_probs self) ->
  fsum (posterior_fn self n <$> range (max_pos self + 1))
  = fsum ((move_probs self).*2) ^ n.
Proof.
  intros Hmx Hnn. induction n as [|n IH].
  - by apply point0_total.
  - change (posterior_fn self (S n)) with (step_fn self (posterior_fn self n)).
    rewrite step_fn_total by done. by rewrite IH.
Qed.

Lemma table_keys {V} (h : Z -> V) xs :
  ((fun pos => (pos, h pos)) <$> xs).*1 = xs.
Proof. rewrite <- list_fmap_compose. apply list_fmap_id. Qed.

Lemma table_values {V} (h : Z -> V) xs :
  ((fun pos => (pos, h pos)) <$> xs).*2 = h <$> xs.
Proof. by rewrite <- list_fmap_compose. Qed.

(** The total mass of the exact posterior, for any total of the movement
    distribution. *)
Lemma exact_posterior_total (self : RobotSimulator Qc) (n_steps : Z) :
  (0 <= max_pos self)%Z ->
  Forall (fun e => 0 <= e.1)%Z (move_probs self) ->
  exists pd,
    compute_exact_posterior self n_steps = Ok pd
    /\ fsum (pd.*2) = fsum ((move_probs self).*2) ^ Z.to_nat n_steps.
Proof.
  intros Hmx Hnn. eexists. split.
  - by apply compute_exact_posterior_spec.
  - rewrite table_values. by apply posterior_fn_total.
Qed.

End Exact.

(** ** The exact posterior engine over any arithmetic *)

Section Engine.
Context {R : Type} `{Arith R}.

Lemma mjoin_nil_table {A} (xs : list Z) :
  mjoin ((fun _ => @nil A) <$> xs) = [].
Proof. induction xs as [|x xs IH]; [done|]. cbn. exact IH. Qed.

Lemma mjoin_app_table {A} (g h : Z -> list A) (xs : list Z) :
  mjoin ((fun s => g s ++ h s) <$> xs)
  ≡ₚ mjoin (g <$> xs) ++ mjoin (h <$> xs).
Proof.
  induction xs as [|x xs IH]; [done|].
  csimpl. rewrite IH. rewrite <- !(assoc_L (++)). apply Permutation_app_head.
  rewrite !(assoc_L (++)). apply Permutation_app_tail, Permutation_app_comm.
Qed.

Lemma mjoin_single {A} (e : A) (a : Z) (xs : list Z) :
  NoDup xs -> a ∈ xs ->
  mjoin ((fun s => if decide (a = s) then [e] else []) <$> xs) = [e].
Proof.
  induction 1 as [|x xs Hx Hnd IH]; intros Ha; [by apply elem_of_nil in Ha|].
  csimpl.
  destruct (decide (a = x)) as [->|Hne].
  - cbn [app]. f_equal.
    etrans; [|apply (mjoin_nil_table (A:=A) xs)]. f_equal.
    apply list_fmap_ext. intros i s Hs.
    rewrite decide_False; [done|]. intros ->.
    apply Hx. by eapply list_elem_of_lookup_2.
  - apply elem_of_cons in Ha as [?|Ha]; [done|]. by apply IH.
Qed.

(** Sorting the items of a list by the value of [f] loses and duplicates
    none of them. *)
Lemma mjoin_filter_partition {A} (f : A -> Z) (l : list A) (xs : list Z) :
  NoDup xs -> Forall (fun e => f e ∈ xs) l ->
  mjoin ((fun s => filter (fun e => f e = s) l) <$> xs) ≡ₚ l.
Proof.
  intros Hnd. induction 1 as [|e l He _ IH].
  - change (mjoin ((fun _ => @nil A) <$> xs) ≡ₚ []).
    by rewrite mjoin_nil_table.
  - assert (Heq : (fun s => filter (fun e => f e = s) (e :: l)) <$> xs
                  = (fun s => (if decide (f e = s) then [e] else [])
                              ++ filter (fun e => f e = s) l) <$> xs).
    { apply list_fmap_ext. intros i s _. rewrite filter_cons.
      by destruct (decide (f e = s)). }
    rewrite Heq, mjoin_app_table, mjoin_single by done. cbn. by rewrite IH.
Qed.

(** C2, as the code has it.  The matrix built by the exact posterior
    engine holds, at every source [p] and destination [s] of [0 .. max_pos],
    the sum (from [0.0], in the order of the dict) of [P(m)] over the step
    sizes [m] with [min(p + m, max_pos) = s]; and every item of the movement
    distribution is counted in exactly one entry of row [p]: the items
    summed in the entries of the row are, together, the items of the dict. *)
Theorem transition_matrix_entries (self : RobotSimulator R) :
  Forall (fun e => 0 <= e.1) (move_probs self) ->
  exists T,
    transition_matrix self = Ok T
    /\ forall p,
         0 <= p <= max_pos self ->
         exists row,
           T !! p = Some row
           /\ (forall s, 0 <= s <= max_pos self ->
                 row !! s = Some (fsum ((moves_to self p s).*2)))
           /\ mjoin ((fun s => moves_to self p s) <$> range (max_pos self + 1))
              ≡ₚ move_probs self.
Proof.
  intros Hnn. destruct (transition_matrix_spec self Hnn) as (T & HT & Hent).
  exists T. split; [exact HT|].
  intros p Hp. destruct (Hent p Hp) as (row & Hrow & Hrs).
  exists row. split; [done|]. split; [exact Hrs|].
  apply (mjoin_filter_partition (fun mpm : Z * R => target_of self p mpm.1));
    [apply NoDup_range|].
  eapply Forall_impl; [exact Hnn|]. cbn. intros e He.
  apply elem_of_range. unfold target_of. lia.
Qed.

End Engine.

Section EngineSigns.
Context {R : Type} `{SignLaws R}.

Lemma fold_fadd_not_negative (l : list R) :
  Forall not_negative l ->
  forall a, not_negative a -> not_negative (fold_left fadd l a).
Proof.
  induction 1 as [|x l Hx _ IH]; intros a Ha; [done|].
  cbn. apply IH. by apply fadd_not_negative.
Qed.

Lemma T_entry_not_negative (self : RobotSimulator R) (p s : Z) :
  Forall (fun e => not_negative e.2) (move_probs self) ->
  not_negative (T_entry self p s).
Proof.
  intros Hnn. unfold T_entry, fsum.
  apply fold_fadd_not_negative; [|apply f0_not_negative].
  apply Forall_fmap, Forall_forall. intros e [_ He]%list_elem_of_filter.
  rewrite Forall_forall in Hnn. by apply Hnn.
Qed.

Lemma step_fn_not_negative (self : RobotSimulator R) (dist : Z -> R) (s : Z) :
  Forall (fun e => not_negative e.2) (move_probs self) ->
  (forall p, not_negative (dist p)) ->
  not_negative (step_fn self dist s).
Proof.
  intros Hnn Hd. unfold step_fn.
  assert (Hfold : forall ps a,
            not_negative a ->
            not_negative
              (fold_left (fun acc pos =>
                            if feqb (dist pos) f0 then acc
                            else fadd acc (fmul (dist pos) (T_entry self pos s)))
                         ps a)).
  { induction ps as [|p ps IH]; intros a Ha; [done|].
    cbn [fold_left]. apply IH.
    destruct (feqb (dist p) f0); [done|].
    apply fadd_not_negative; [done|].
    apply fmul_not_negative; [done|]. by apply T_entry_not_negative. }
  apply Hfold, f0_not_negative.
Qed.

Lemma posterior_fn_not_negative (self : RobotSimulator R) (n : nat) (s : Z) :
  Forall (fun e => not_negative e.2) (move_probs self) ->
  not_negative (posterior_fn self n s).
Proof.
  intros Hnn. revert s. induction n as [|n IH]; intros s.
  - unfold posterior_fn, point0. cbn.
    destruct (decide _); [apply f1_not_negative|apply f0_not_negative].
  - change (posterior_fn self (S n)) with (step_fn self (posterior_fn self n)).
    by apply step_fn_not_negative.
Qed.

(** C1, as the code has it.  For non-negative distances and any number of
    steps [compute_exact_posterior] returns a table over the positions
    [0 .. max_pos]; when no probability of the movement distribution is
    negative, no entry of the table is. *)
Theorem exact_posterior_is_distribution
    (self : RobotSimulator R) (n_steps : Z) :
  0 <= max_pos self ->
  Forall (fun e => 0 <= e.1) (move_probs self) ->
  exists pd,
    compute_exact_posterior self n_steps = Ok pd
    /\ pd.*1 = range (max_pos self + 1)
    /\ (Forall (fun e => not_negative e.2) (move_probs self) ->
        Forall not_negative (pd.*2)).
Proof.
  intros Hmx Hnn. eexists. split; [by apply compute_exact_posterior_spec|].
  split; [apply table_keys|].
  intros Hpos. rewrite table_values. apply Forall_fmap, Forall_forall.
  intros s _. by apply posterior_fn_not_negative.
Qed.

End EngineSigns.

(** ** The Monte Carlo estimator *)

Section Estimator.
Context {R : Type} `{Arith R}.

Lemma advance_advance (g : Rng R) (a b : nat) :
  advance (advance g a) b = advance g (a + b).
Proof. unfold advance. cbn. f_equal. lia. Qed.

Lemma advance_0 (g : Rng R) : advance g 0 = g.
Proof. unfold advance. destruct g. cbn. f_equal. lia. Qed.

Lemma run_single_spec (self : RobotSimulator R) (n_steps : Z) (g : Rng R) :
  _moves self <> [] ->
  run_single self n_steps g
  = Ok (final_of self (draws g) (cursor g) (Z.to_nat n_steps),
        advance g (2 * Z.to_nat n_steps)).
Proof.
  intros Hne.
  destruct (run_steps_spec self (Z.to_nat n_steps) Hne 0 [] g)
    as (tr & Hrun & _).
  unfold run_single, run_single_trace, bindM. by rewrite Hrun.
Qed.

Lemma run_trials_spec (self : RobotSimulator R) (n_steps : Z) (k : nat) :
  _moves self <> [] ->
  forall counts g,
  run_trials self n_steps k counts g
  = Ok (tally counts
          (finals self (draws g) (cursor g) (Z.to_nat n_steps) k),
        advance g (2 * Z.to_nat n_steps * k)).
Proof.
  intros Hne. induction k as [|k IH]; intros counts g.
  - cbn. unfold ret. by rewrite Nat.mul_0_r, advance_0.
  - cbn [run_trials]. unfold bindM. rewrite run_single_spec by done.
    rewrite IH. cbn [finals tally fold_left advance draws cursor].
    f_equal. f_equal. unfold advance. cbn. f_equal. lia.
Qed.

Lemma counter_getitem_insert (counts : gmap Z Z) (f pos v : Z) :
  counter_getitem (<[f := v]> counts) pos
  = if decide (f = pos) then v else counter_getitem counts pos.
Proof.
  unfold counter_getitem. rewrite lookup_insert.
  by destruct (decide (f = pos)).
Qed.

Lemma occurrences_cons (pos f : Z) (fs : list Z) :
  occurrences pos (f :: fs)
  = ((if decide (f = pos) then 1 else 0) + occurrences pos fs)%nat.
Proof.
  unfold occurrences. rewrite filter_cons. by destruct (decide (f = pos)).
Qed.

Lemma tally_count (fs : list Z) :
  forall counts pos,
  counter_getitem (tally counts fs) pos
  = counter_getitem counts pos + Z.of_nat (occurrences pos fs).
Proof.
  induction fs as [|f fs IH]; intros counts pos.
  - cbn. lia.
  - cbn [tally fold_left]. fold (tally (<[f := counter_getitem counts f + 1]> counts) fs).
    rewrite IH, counter_getitem_insert, occurrences_cons.
    destruct (decide (f = pos)) as [->|]; lia.
Qed.

Lemma occurrences_total (xs fs : list Z) :
  NoDup xs ->
  Forall (fun f => f ∈ xs) fs ->
  sum_list_with (fun pos => occurrences pos fs) xs = length fs.
Proof.
  intros Hnd. induction 1 as [|f fs Hf _ IH]; cbn [length].
  - clear Hnd. induction xs as [|x xs IHxs]; [done|].
    cbn [sum_list_with]. by rewrite IHxs.
  - rewrite <- IH. clear IH.
    induction Hnd as [|x xs Hnotin Hnd IHxs]; [by apply elem_of_nil in Hf|].
    cbn [sum_list_with]. rewrite occurrences_cons.
    destruct (decide (f = x)) as [->|Hne].
    + assert (Hrest : sum_list_with (fun pos => occurrences pos (x :: fs)) xs
                      = sum_list_with (fun pos => occurrences pos fs) xs).
      { clear IHxs Hnd Hf. induction xs as [|y xs IHy]; [done|]. cbn [sum_list_with].
        rewrite occurrences_cons, decide_False.
        - rewrite IHy; [done|]. intros Hx. apply Hnotin. apply elem_of_cons; auto.
        - intros ->. apply Hnotin. apply elem_of_cons; auto. }
      rewrite Hrest. lia.
    + apply elem_of_cons in Hf as [?|Hf]; [done|].
      rewrite (IHxs Hf). lia.
Qed.

Lemma comprehension_truediv (counts : gmap Z Z) (trials : Z) (xs : list Z) :
  trials <> 0 ->
  comprehension (fun pos => p <- truediv (counter_getitem counts pos) trials;;
                            Ok (pos, p)) xs
  = Ok ((fun pos => (pos, int_truediv (counter_getitem counts pos) trials))
          <$> xs).
Proof.
  intros Ht. induction xs as [|x xs IH]; [done|].
  cbn [comprehension]. unfold truediv at 1. rewrite decide_False by done.
  cbn [bindR]. by rewrite IH.
Qed.

Lemma finals_in_range (self : RobotSimulator R) (dr : nat -> R) (n k : nat) :
  (forall u, 0 <= sample_of self u) ->
  0 <= max_pos self ->
  forall c,
  Forall (fun f => f ∈ range (max_pos self + 1)) (finals self dr c n k).
Proof.
  intros Hs Hmx. induction k as [|k IH]; intros c; cbn [finals]; [done|].
  constructor; [|apply IH].
  destruct (targets_monotone_bounded self dr Hs n c 0 ltac:(lia)) as [_ Hall].
  apply elem_of_range. unfold final_of.
  apply (last_in_range (fun p => 0 <= p < max_pos self + 1)); [lia|].
  eapply Forall_impl; [exact Hall|]. cbn. lia.
Qed.

Lemma length_finals (self : RobotSimulator R) (dr : nat -> R) (n k : nat) :
  forall c, length (finals self dr c n k) = k.
Proof. induction k as [|k IH]; intros c; cbn; [done|]. by rewrite IH. Qed.

(** The estimate in closed form, over any arithmetic: each probability is
    the number of runs that ended at the position, divided by [trials]. *)
Lemma simulate_spec (self : RobotSimulator R) (n_steps trials : Z) (g : Rng R) :
  _moves self <> [] ->
  trials <> 0 ->
  simulate self n_steps trials g
  = Ok ((fun pos =>
           (pos, int_truediv
                   (Z.of_nat
                      (occurrences pos
                         (finals self (draws g) (cursor g)
                            (Z.to_nat n_steps) (Z.to_nat trials))))
                   trials))
          <$> range (max_pos self + 1),
        advance g (2 * Z.to_nat n_steps * Z.to_nat trials)).
Proof.
  intros Hne Ht. unfold simulate, bindM. rewrite run_trials_spec by done.
  unfold lift. rewrite comprehension_truediv by done.
  f_equal. f_equal. apply list_fmap_ext. intros i pos _.
  rewrite tally_count. unfold counter_getitem at 1. by rewrite lookup_empty.
Qed.

(** Without trials the division raises, unless there is no position. *)
Lemma simulate_no_trials (self : RobotSimulator R) (n_steps : Z) (g : Rng R) :
  0 <= max_pos self ->
  simulate self n_steps 0 g = Raise ZeroDivisionError.
Proof.
  intros Hmx. unfold simulate, bindM. cbn [Z.to_nat run_trials ret].
  unfold range. rewrite seqZ_cons by lia. cbn [comprehension]. cbv beta.
  unfold truediv. destruct (decide (0 = 0)); done.
Qed.

End Estimator.

(** ** Point masses *)

#[export] Instance Qc_unit_laws : UnitLaws Qc.
Proof.
  split; try (apply Qc_is_canon; reflexivity); try reflexivity.
  - intros n Hn. cbn. apply Qcmult_inv_r.
    rewrite <- Z2Qc_inj_0. intros Heq%Z2Qc_inj. lia.
  - intros n Hn. cbn. rewrite Z2Qc_inj_0. unfold Qcdiv. apply Qcmult_0_l.
Qed.

(** ** The laws of the two arithmetics *)

Section ExactLaws.
Local Open Scope Qc_scope.

Lemma Qc_not_negative (x : Qc) : not_negative x <-> 0 <= x.
Proof.
  unfold not_negative. cbn. rewrite bool_decide_eq_false.
  split; [apply Qcnot_lt_le|apply Qcle_not_lt].
Qed.

#[export] Instance Qc_sign_laws : SignLaws Qc.
Proof.
  split.
  - by apply Qc_not_negative.
  - by apply Qc_not_negative.
  - intros x y Hx%Qc_not_negative Hy%Qc_not_negative. apply Qc_not_negative.
    by apply Qcplus_nonneg_nonneg.
  - intros x y Hx%Qc_not_negative Hy%Qc_not_negative. apply Qc_not_negative.
    by apply Qcmult_nonneg_nonneg.
  - intros a b Ha Hb. apply Qc_not_negative. cbn. unfold Qcdiv.
    apply Qcmult_nonneg_nonneg.
    + rewrite <- Z2Qc_inj_0. by apply (proj1 (Z2Qc_inj_le 0 a)).
    + apply Qclt_le_weak, Qcinv_pos. rewrite <- Z2Qc_inj_0.
      by apply (proj1 (Z2Qc_inj_lt 0 b)).
Qed.

#[export] Instance Qc_le_laws : LeLaws Qc.
Proof.
  split. intros x y z Hxy%bool_decide_eq_true Hyz%bool_decide_eq_true.
  apply bool_decide_eq_true. by eapply Qcle_trans.
Qed.

#[export] Instance Qc_add_laws : AddLaws Qc.
Proof.
  split; [done|..];
    intros x y Hx%bool_decide_eq_true Hy%bool_decide_eq_true;
    apply bool_decide_eq_true.
  - by apply Qcplus_nonneg_nonneg.
  - rewrite <- (Qcplus_0_r x) at 1. by apply Qcplus_le_mono_l.
Qed.

End ExactLaws.

(** In binary64 the laws of signs and of [<=] follow from the
    specification of the operations: [Prim2SF] maps a float to its sign,
    mantissa and exponent, and the result of a rounding has the sign of
    what is rounded. *)
Section Binary64Laws.

Lemma ltb_zero (x : float) :
  PrimFloat.ltb x PrimFloat.zero = negb (sf_not_negative (Prim2SF x)).
Proof.
  rewrite FloatAxioms.ltb_spec.
  change (Prim2SF PrimFloat.zero) with (S754_zero false).
  unfold SFltb. destruct (Prim2SF x) as [s|s| |s m e]; try destruct s; reflexivity.
Qed.

Lemma round_aux_sign (s : bool) (m e : Z) (l : location) :
  match binary_round_aux prec emax s m e l with
  | S754_finite s' _ _ | S754_infinity s' | S754_zero s' => s' = s
  | S754_nan => True
  end.
Proof.
  unfold binary_round_aux.
  destruct (shr_fexp prec emax m e l) as [mrs' e'].
  destruct (shr_fexp _ _ _ _ _) as [mrs'' e''].
  destruct (shr_m mrs''); [reflexivity| |exact I].
  destruct (Z.leb e'' _); reflexivity.
Qed.

Lemma round_aux_plus (m e : Z) (l : location) :
  sf_plus (binary_round_aux prec emax false m e l) = true.
Proof.
  pose proof (round_aux_sign false m e l) as Hs.
  destruct (binary_round_aux _ _ _ _ _ _) as [s|s| |s ? ?]; cbn; subst; reflexivity.
Qed.

Lemma round_plus (m : positive) (e : Z) :
  sf_plus (binary_round prec emax false m e) = true.
Proof.
  unfold binary_round. destruct (shl_align _ _ _). apply round_aux_plus.
Qed.

Lemma normalize_plus (m e : Z) :
  0 <= m -> sf_plus (binary_normalize prec emax m e false) = true.
Proof.
  intros Hm. unfold binary_normalize. destruct m as [|p|p]; [reflexivity| |lia].
  apply round_plus.
Qed.

Lemma plus_not_negative (x : spec_float) :
  sf_plus x = true -> sf_not_negative x = true.
Proof. destruct x as [s|s| |s ? ?]; try destruct s; cbn; congruence. Qed.

Lemma SFadd_not_negative (x y : spec_float) :
  sf_not_negative x = true -> sf_not_negative y = true ->
  sf_not_negative (SFadd prec emax x y) = true.
Proof.
  destruct x as [sx|sx| |sx mx ex], y as [sy|sy| |sy my ey];
    try destruct sx; try destruct sy; cbn -[binary_normalize]; try congruence.
  intros _ _. apply plus_not_negative, normalize_plus. cbn. lia.
Qed.

Lemma SFmul_not_negative (x y : spec_float) :
  sf_not_negative x = true -> sf_not_negative y = true ->
  sf_not_negative (SFmul prec emax x y) = true.
Proof.
  destruct x as [sx|sx| |sx mx ex], y as [sy|sy| |sy my ey];
    try destruct sx; try destruct sy; cbn -[binary_round_aux]; try congruence.
  intros _ _. apply plus_not_negative, round_aux_plus.
Qed.

Lemma SFdiv_plus (a b : Z) :
  0 <= a -> 0 < b -> sf_plus (SFdiv prec emax (Z2SF a) (Z2SF b)) = true.
Proof.
  intros Ha Hb. destruct a as [|p|p], b as [|q|q]; try lia; [reflexivity|].
  cbn -[binary_round_aux SFdiv_core_binary].
  destruct (SFdiv_core_binary _ _ _ _ _ _) as [[mz ez] lz].
  apply round_aux_plus.
Qed.

Lemma SF2Prim_plus (x : spec_float) :
  sf_plus x = true -> sf_plus (Prim2SF (SF2Prim x)) = true.
Proof.
  destruct x as [s|s| |s m e]; try destruct s; cbn -[Prim2SF SF2Prim];
    try congruence; try reflexivity.
  intros _. unfold SF2Prim. rewrite Z_ldexp_spec, of_uint63_spec.
  pose proof (Uint63.to_Z_bounded (Uint63.of_Z (Z.pos m))) as Hb.
  pose proof (normalize_plus (Uint63.to_Z (Uint63.of_Z (Z.pos m))) 0 ltac:(lia))
    as Hn.
  destruct (binary_normalize _ _ _ _ _) as [s|s| |s m' e'];
    try destruct s; cbn -[binary_round] in *; try congruence.
  apply round_plus.
Qed.

Lemma SFleb_trans (x y z : spec_float) :
  SFleb x y = true -> SFleb y z = true -> SFleb x z = true.
Proof.
  unfold SFleb.
  destruct x as [sx|sx| |sx mx ex], y as [sy|sy| |sy my ey],
           z as [sz|sz| |sz mz ez];
    try destruct sx; try destruct sy; try destruct sz;
    cbn; try congruence;
    rewrite ?Pos.compare_cont_spec; cbn [Pos.switch_Eq];
    destruct (Z.compare_spec ex ey), (Z.compare_spec ey ez),
             (Z.compare_spec ex ez); try lia; cbn; try congruence;
    destruct (Pos.compare_spec mx my), (Pos.compare_spec my mz),
             (Pos.compare_spec mx mz); try lia; cbn; congruence.
Qed.

#[export] Instance float_sign_laws : SignLaws float.
Proof.
  split; unfold not_negative; cbn [fltb fadd fmul f0 f1 int_truediv float_arith].
  - reflexivity.
  - reflexivity.
  - intros x y. rewrite !ltb_zero, FloatAxioms.add_spec, !negb_false_iff.
    apply SFadd_not_negative.
  - intros x y. rewrite !ltb_zero, FloatAxioms.mul_spec, !negb_false_iff.
    apply SFmul_not_negative.
  - intros a b Ha Hb. rewrite ltb_zero, negb_false_iff.
    by apply plus_not_negative, SF2Prim_plus, SFdiv_plus.
Qed.

#[export] Instance float_le_laws : LeLaws float.
Proof.
  split. intros x y z. cbn [fleb float_arith].
  rewrite !FloatAxioms.leb_spec. apply SFleb_trans.
Qed.

End Binary64Laws.
Section PointMass.
Context {R : Type} `{UnitLaws R}.

Lemma occurrences_replicate (pos q : Z) (k : nat) :
  occurrences pos (replicate k q) = if decide (pos = q) then k else 0%nat.
Proof.
  induction k as [|k IH]; [by destruct (decide _)|].
  cbn [replicate]. rewrite occurrences_cons, IH.
  destruct (decide (pos = q)) as [->|Hne].
  - by rewrite decide_True.
  - by rewrite decide_False.
Qed.

Lemma finals_constant (self : RobotSimulator R) (dr : nat -> R) (n k : nat)
    (q : Z) :
  (forall c, final_of self dr c n = q) ->
  forall c, finals self dr c n k = replicate k q.
Proof.
  intros Hq. induction k as [|k IH]; intros c; cbn [finals replicate]; [done|].
  by rewrite Hq, IH.
Qed.

(** When every run ends at [q], the estimate is the point mass at [q]. *)
Lemma simulate_point_mass (self : RobotSimulator R) (n_steps trials : Z)
    (g : Rng R) (q : Z) :
  _moves self <> [] ->
  1 <= trials ->
  (forall c, final_of self (draws g) c (Z.to_nat n_steps) = q) ->
  simulate self n_steps trials g
  = Ok (point_mass (max_pos self) q,
        advance g (2 * Z.to_nat n_steps * Z.to_nat trials)).
Proof.
  intros Hne Ht Hq. rewrite simulate_spec by (done || lia).
  f_equal. f_equal. unfold point_mass. apply list_fmap_ext. intros i pos _.
  f_equal. rewrite (finals_constant _ _ _ _ q Hq), occurrences_replicate.
  destruct (decide (pos = q)).
  - rewrite Z2Nat.id by lia. apply truediv_same. lia.
  - apply truediv_zero. lia.
Qed.

End PointMass.

Section Deterministic.
Context {R : Type} `{UnitLaws R}.

(** C7, as the code has it.  A negative number of steps is not rejected:
    [range(n_steps)] is then empty and both operations behave as for
    [n_steps = 0], returning the point mass at position 0. *)
Theorem nonpositive_steps_point_mass
    (mx : Z) (mp : option (list (Z * R))) (pw pc : R) (self : RobotSimulator R)
    (n_steps trials : Z) (g : Rng R) :
  __init__ mx mp pw pc = Ok self ->
  Forall (fun e => 0 <= e.1) (move_probs self) ->
  0 <= max_pos self ->
  n_steps <= 0 ->
  1 <= trials ->
  compute_exact_posterior self n_steps = Ok (point_mass (max_pos self) 0)
  /\ simulate self n_steps trials g = Ok (point_mass (max_pos self) 0, g).
Proof.
  intros Hinit Hnn Hmx Hn Ht.
  pose proof (init_moves_nonempty _ _ _ _ _ Hinit) as Hne.
  assert (Hz : Z.to_nat n_steps = 0%nat) by lia.
  split.
  - rewrite compute_exact_posterior_spec by done. by rewrite Hz.
  - rewrite (simulate_point_mass self n_steps trials g 0) by (done || by rewrite Hz).
    rewrite Hz. cbn [Nat.mul]. by rewrite advance_0.
Qed.

Lemma walk_closed (d mx : Z) (n : nat) :
  0 <= d -> 0 <= mx -> walk d mx n 0 = Z.min (Z.of_nat n * d) mx.
Proof.
  intros Hd Hmx. unfold walk. induction n as [|n IH]; [cbn; lia|].
  rewrite Nat.iter_succ, IH. nia.
Qed.

Lemma walk_range (d mx : Z) (n : nat) :
  0 <= d -> 0 <= mx -> 0 <= walk d mx n 0 <= mx.
Proof. intros. rewrite walk_closed by done. nia. Qed.

Lemma targets_walk (self : RobotSimulator R) (dr : nat -> R) (d : Z) (n : nat) :
  (forall u, sample_of self u = d) ->
  forall c pos,
  default pos (last (targets self dr c n pos)) = walk d (max_pos self) n pos.
Proof.
  intros Hs. induction n as [|n IH]; intros c pos; [done|].
  cbn [targets]. rewrite default_last_cons, IH, Hs.
  unfold walk. by rewrite Nat.iter_succ_r.
Qed.

Lemma fold_point (xs : list Z) (q : Z) (t : Z -> R) :
  NoDup xs ->
  forall a,
  fold_left (fun acc pos =>
               if feqb (if decide (pos = q) then f1 else f0) f0 then acc
               else fadd acc (fmul (if decide (pos = q) then f1 else f0)
                                   (t pos))) xs a
  = if decide (q ∈ xs) then fadd a (fmul f1 (t q)) else a.
Proof.
  induction 1 as [|x xs Hnotin Hnd IH]; intros a; [done|].
  cbn [fold_left]. rewrite IH. destruct (decide (x = q)) as [->|Hne].
  - rewrite feqb_1_0, decide_False by done.
    by rewrite decide_True by (apply elem_of_cons; auto).
  - rewrite feqb_0_0. destruct (decide (q ∈ xs)).
    + by rewrite decide_True by (apply elem_of_cons; auto).
    + rewrite decide_False; [done|]. intros [?|?]%elem_of_cons; done.
Qed.

Lemma fold_left_ext_in {A B} (f f' : B -> A -> B) (xs : list A) :
  (forall b x, x ∈ xs -> f b x = f' b x) ->
  forall b, fold_left f xs b = fold_left f' xs b.
Proof.
  induction xs as [|x xs IH]; intros Hf b; [done|].
  cbn. rewrite Hf by (apply elem_of_cons; auto).
  apply IH. intros b' y Hy. apply Hf. apply elem_of_cons; auto.
Qed.

Lemma step_fn_ext (self : RobotSimulator R) (delta delta' : Z -> R) (s : Z) :
  (forall p, 0 <= p <= max_pos self -> delta p = delta' p) ->
  step_fn self delta s = step_fn self delta' s.
Proof.
  intros Hd. unfold step_fn. apply fold_left_ext_in.
  intros b p Hp%elem_of_range. by rewrite Hd by lia.
Qed.

Lemma step_fn_point (self : RobotSimulator R) (q s : Z) :
  0 <= q <= max_pos self ->
  step_fn self (fun pos => if decide (pos = q) then f1 else f0) s
  = fadd f0 (fmul f1 (T_entry self q s)).
Proof.
  intros Hq. unfold step_fn.
  rewrite (fold_point _ q (fun pos => T_entry self pos s)) by apply NoDup_range.
  by rewrite decide_True by (apply elem_of_range; lia).
Qed.

Lemma T_entry_single (self : RobotSimulator R) (d q s : Z) :
  move_probs self = [(d, f1)] ->
  T_entry self q s
  = if decide (Z.min (q + d) (max_pos self) = s) then f1 else f0.
Proof.
  intros Hmp. unfold T_entry, target_of. rewrite Hmp.
  rewrite filter_cons, filter_nil. cbn [fst].
  destruct (decide _); [|done].
  unfold fsum. cbn. apply fadd_0_1.
Qed.

Lemma posterior_fn_single (self : RobotSimulator R) (d : Z) (n : nat) :
  move_probs self = [(d, f1)] ->
  0 <= d -> 0 <= max_pos self ->
  forall s, 0 <= s <= max_pos self ->
  posterior_fn self n s
  = if decide (s = walk d (max_pos self) n 0) then f1 else f0.
Proof.
  intros Hmp Hd Hmx. induction n as [|n IH]; intros s Hs; [done|].
  change (posterior_fn self (S n)) with (step_fn self (posterior_fn self n)).
  rewrite (step_fn_ext self _ _ s IH).
  rewrite step_fn_point by (by apply walk_range).
  rewrite (T_entry_single self d) by done.
  change (walk d (max_pos self) (S n) 0)
    with (Z.min (walk d (max_pos self) n 0 + d) (max_pos self)).
  destruct (decide (s = _)) as [->|Hne].
  - rewrite decide_True by done. by rewrite fmul_1_1, fadd_0_1.
  - rewrite decide_False by done. by rewrite fmul_1_0, fadd_0_0.
Qed.

Lemma close_refl_forall (mx q : Z) :
  Forall2 (fun a b : Z * R => a.1 = b.1 /\ close a.2 b.2 = true)
          (point_mass mx q) (point_mass mx q).
Proof.
  apply Forall2_same_length_lookup. split; [done|].
  intros i a b Ha Hb. rewrite Ha in Hb. injection Hb as <-.
  split; [done|]. unfold point_mass in Ha.
  apply list_lookup_fmap_Some in Ha as (pos & -> & _). cbn.
  destruct (decide _); [apply close_1_1|apply close_0_0].
Qed.

(** C6.  For the movement distribution with a single distance [d] of
    probability 1.0, [simulate] and [compute_exact_posterior] return the same
    distribution, whatever the draws: the point mass at
    [min(n_steps * d, max_pos)].  Entry by entry the two agree within
    1e-6. *)
Theorem deterministic_estimate_matches_exact
    (mx d : Z) (pw pc : R) (self : RobotSimulator R)
    (n_steps trials : Z) (g : Rng R) :
  __init__ mx (Some [(d, f1)]) pw pc = Ok self ->
  0 <= d ->
  0 <= mx ->
  1 <= trials ->
  exists exact empirical g',
    compute_exact_posterior self n_steps = Ok exact
    /\ simulate self n_steps trials g = Ok (empirical, g')
    /\ exact = empirical
    /\ exact = point_mass mx (Z.min (Z.max 0 n_steps * d) mx)
    /\ Forall2 (fun a b : Z * R => a.1 = b.1 /\ close a.2 b.2 = true)
               exact empirical.
Proof.
  intros Hinit Hd Hmx Ht.
  pose proof (init_moves_nonempty _ _ _ _ _ Hinit) as Hne.
  rewrite init_spec in Hinit. injection Hinit as <-.
  set (self := {| max_pos := mx |}) in *.
  assert (Hmp : move_probs self = [(d, f1)]) by done.
  assert (Hsample : forall u, sample_of self u = d).
  { intros u. unfold sample_of. cbn. by destruct (fleb _ _). }
  assert (Hq : walk d mx (Z.to_nat n_steps) 0 = Z.min (Z.max 0 n_steps * d) mx).
  { rewrite walk_closed by done. f_equal. f_equal. lia. }
  exists (point_mass mx (Z.min (Z.max 0 n_steps * d) mx)),
    (point_mass mx (Z.min (Z.max 0 n_steps * d) mx)),
    (advance g (2 * Z.to_nat n_steps * Z.to_nat trials)).
  split; [|split; [|split; [done|split; [done|apply close_refl_forall]]]].
  - rewrite compute_exact_posterior_spec; [|done|by repeat constructor].
    f_equal. unfold point_mass. apply list_fmap_ext.
    intros i pos Hpos%list_elem_of_lookup_2%elem_of_range. f_equal.
    rewrite (posterior_fn_single self d) by (done || (cbn; lia)).
    cbn [max_pos self]. by rewrite Hq.
  - rewrite (simulate_point_mass self n_steps trials g
               (Z.min (Z.max 0 n_steps * d) mx)); [done|done|done|].
    intros c. unfold final_of. rewrite (targets_walk self _ d) by done.
    exact Hq.
Qed.

End Deterministic.

(** ** Failure modes and the frequency table *)

Section EstimatorFacts.
Context {R : Type} `{Arith R}.

(** C8, as the code has it.  With [trials = 0] the estimator does not
    return: the division [counts[pos] / trials] raises [ZeroDivisionError]
    (there is no check of the argument).  With [trials >= 1] it returns. *)
Theorem simulate_zero_trials_raises
    (mx : Z) (mp : option (list (Z * R))) (pw pc : R) (self : RobotSimulator R)
    (n_steps : Z) (g : Rng R) :
  __init__ mx mp pw pc = Ok self ->
  0 <= max_pos self ->
  simulate self n_steps 0 g = Raise ZeroDivisionError
  /\ forall trials, 1 <= trials ->
       exists probs g', simulate self n_steps trials g = Ok (probs, g').
Proof.
  intros Hinit Hmx. split; [by apply simulate_no_trials|].
  intros trials Ht. eexists _, _. apply simulate_spec; [|lia].
  eapply init_moves_nonempty, Hinit.
Qed.

End EstimatorFacts.

Section FrequencyTable.
Context {R : Type} `{SignLaws R}.

Lemma finals_lookup (self : RobotSimulator R) (dr : nat -> R) (n k : nat) :
  forall c j pos,
  finals self dr c n k !! j = Some pos ->
  pos = final_of self dr (c + 2 * n * j) n.
Proof.
  induction k as [|k IH]; intros c j pos Hj; [done|].
  cbn [finals] in Hj. destruct j as [|j].
  - injection Hj as <-. f_equal. lia.
  - cbn in Hj. rewrite (IH _ _ _ Hj). f_equal. lia.
Qed.

(** C3, as the code has it.  For [trials >= 1] and non-negative distances
    the estimate gives every position of [0 .. max_pos] its final-position
    count divided by [trials]: there are [trials] runs, run [j] is
    [run_single(n_steps)] started where run [j - 1] left the random source,
    it ends at a position of [0 .. max_pos], and the count of a position is
    the number of runs that ended there.  The counts add up to [trials] and
    no probability is negative. *)
Theorem simulate_is_frequency_table
    (mx : Z) (mp : option (list (Z * R))) (pw pc : R) (self : RobotSimulator R)
    (n_steps trials : Z) (g : Rng R) :
  __init__ mx mp pw pc = Ok self ->
  Forall (fun e => 0 <= e.1) (move_probs self) ->
  0 <= max_pos self ->
  1 <= trials ->
  exists (ends : list Z) probs,
    simulate self n_steps trials g
    = Ok (probs, advance g (2 * Z.to_nat n_steps * Z.to_nat trials))
    /\ length ends = Z.to_nat trials
    /\ (forall j pos,
          ends !! j = Some pos ->
          run_single self n_steps (advance g (2 * Z.to_nat n_steps * j))
          = Ok (pos, advance g (2 * Z.to_nat n_steps * S j))
          /\ 0 <= pos <= max_pos self)
    /\ probs = (fun pos =>
                  (pos, int_truediv (Z.of_nat (occurrences pos ends)) trials))
                 <$> range (max_pos self + 1)
    /\ sum_list_with (fun pos => occurrences pos ends)
                     (range (max_pos self + 1)) = Z.to_nat trials
    /\ Forall not_negative (probs.*2).
Proof.
  intros Hinit Hnn Hmx Ht.
  pose proof (init_moves_nonempty _ _ _ _ _ Hinit) as Hne.
  pose proof (init_sample_nonneg _ _ _ _ _ Hinit Hnn) as Hs.
  pose proof (finals_in_range self (draws g) (Z.to_nat n_steps)
                (Z.to_nat trials) Hs Hmx (cursor g)) as Hin.
  exists (finals self (draws g) (cursor g) (Z.to_nat n_steps) (Z.to_nat trials)).
  eexists. split; [apply simulate_spec; [done|lia]|].
  split; [apply length_finals|]. split; [|split; [done|split]].
  - intros j pos Hj. split.
    + rewrite run_single_spec by done.
      rewrite (finals_lookup _ _ _ _ _ _ _ Hj), advance_advance.
      replace (2 * Z.to_nat n_steps * S j)%nat
        with (2 * Z.to_nat n_steps * j + 2 * Z.to_nat n_steps)%nat by lia.
      reflexivity.
    + rewrite Forall_forall in Hin.
      assert (Hpos : pos ∈ range (max_pos self + 1)).
      { apply Hin. by eapply list_elem_of_lookup_2. }
      apply elem_of_range in Hpos. lia.
  - rewrite occurrences_total; [apply length_finals|apply NoDup_range|done].
  - rewrite table_values. apply Forall_fmap, Forall_forall. intros pos _.
    apply truediv_not_negative; lia.
Qed.

End FrequencyTable.

Lemma robot_with_init {R : Type} `{Arith R} (pw pc : R) :
  __init__ default_max_pos None pw pc = Ok (robot_with pw pc).
Proof. reflexivity. Qed.

Lemma robot_moving_init {R : Type} `{Arith R} (d : Z) :
  __init__ default_max_pos (Some [(d, f1)]) f1 f1 = Ok (robot_moving R d).
Proof.
  rewrite init_spec. unfold robot_moving. cbn.
  unfold prob_of. cbn. by destruct (decide (d = d)).
Qed.

(** In binary64 the decimal literals of the source are the int quotients. *)
Example literals_are_quotients :
  (lit 1 10 = 0x1.999999999999ap-4
   /\ lit 7 10 = 0x1.6666666666666p-1
   /\ lit 2 10 = 0x1.999999999999ap-3)%float.
Proof. repeat split; reflexivity. Qed.

(** C9.  The catalog has 6 entries; in each the movement probabilities are
    over the distances 0, 1, 2 and sum to 1 within 1e-9 (exactly, in exact
    arithmetic), and both correctness probabilities are 1.0, hence in
    [[0, 1]]. *)
Theorem catalog_schema :
  length (movement_table.distribution_sets (R:=float)) = 6%nat
  /\ Forall (fun cfg : movement_table.entry float =>
               (movement_table.movement cfg).*1 = [0; 1; 2]
               /\ movement_table.schema_ok cfg = true
               /\ movement_table.p_correct_wall cfg = f1
               /\ movement_table.p_correct_window cfg = f1)
            movement_table.distribution_sets
  /\ Forall (fun cfg : movement_table.entry Qc =>
               (movement_table.movement cfg).*1 = [0; 1; 2]
               /\ fsum ((movement_table.movement cfg).*2) = 1%Qc
               /\ movement_table.schema_ok cfg = true
               /\ movement_table.p_correct_wall cfg = f1
               /\ movement_table.p_correct_window cfg = f1)
            movement_table.distribution_sets.
Proof.
  split; [reflexivity|]. split.
  - repeat constructor.
  - repeat constructor; by apply Qc_is_canon.
Qed.

(** * Further properties of the code *)

(** ** The sensor and the trace of a run *)

Section Sensor.
Context {R : Type} `{Arith R}.

Lemma true_label_cases (pos : Z) :
  (pos `mod` 2 = 0 /\ true_label_at pos = "window"%string)
  \/ (pos `mod` 2 = 1 /\ true_label_at pos = "wall"%string).
Proof.
  unfold true_label_at. destruct (decide (pos `mod` 2 = 0)) as [E|E]; [by left|].
  right. split; [|done]. pose proof (Z.mod_pos_bound pos 2). lia.
Qed.

(** X1.  The squares alternate: position 0 is a window, two neighbouring
    positions never carry the same label, and the labels repeat with period
    2; this holds for negative positions too. *)
Theorem true_label_alternates (pos : Z) :
  true_label_at 0 = "window"%string
  /\ (true_label_at pos = "window"%string \/ true_label_at pos = "wall"%string)
  /\ true_label_at (pos + 1) <> true_label_at pos
  /\ true_label_at (pos + 2) = true_label_at pos.
Proof.
  split; [done|].
  destruct (true_label_cases pos) as [[E ->]|[E ->]];
    destruct (true_label_cases (pos + 1)) as [[E1 ->]|[E1 ->]];
    destruct (true_label_cases (pos + 2)) as [[E2 ->]|[E2 ->]];
    repeat split; auto; try discriminate;
    exfalso; Z.to_euclidean_division_equations; lia.
Qed.

Lemma perceive_label_seen (self : RobotSimulator R) (lab : string) (g : Rng R) :
  perceive_label self lab g
  = Ok (seen_of self lab (draws g (cursor g)), advance g 1).
Proof.
  unfold perceive_label, seen_of, bindM, random, ret, advance.
  replace (cursor g + 1)%nat with (S (cursor g)) by lia.
  destruct (String.eqb lab "wall"); destruct (fleb _ _); reflexivity.
Qed.

(** X2.  A reading takes exactly one draw [u] and is always one of the two
    labels.  For a wall it is right exactly when [u <= p_correct_wall]; any
    other label is treated as a window and read as one exactly when
    [u <= p_correct_window]. *)
Theorem perceive_label_reading (self : RobotSimulator R) (lab : string)
    (g : Rng R) :
  let u := draws g (cursor g) in
  exists seen,
    perceive_label self lab g = Ok (seen, advance g 1)
    /\ (seen = "wall"%string \/ seen = "window"%string)
    /\ (lab = "wall"%string ->
        (seen = "wall"%string <-> fleb u (p_correct_wall self) = true))
    /\ (lab <> "wall"%string ->
        (seen = "window"%string <-> fleb u (p_correct_window self) = true)).
Proof.
  intros u. exists (seen_of self lab u). split; [apply perceive_label_seen|].
  unfold seen_of. destruct (String.eqb_spec lab "wall") as [->|Hne].
  - destruct (fleb u _); repeat split; auto; try done.
  - destruct (fleb u _); repeat split; auto; try done.
Qed.

Lemma run_steps_trace (self : RobotSimulator R) (n : nat) :
  _moves self <> [] ->
  forall pos trace g,
  run_steps self n pos trace g
  = Ok ((default pos (last (targets self (draws g) (cursor g) n pos)),
         trace ++ trace_of self (draws g) (cursor g) n pos),
        advance g (2 * n)).
Proof.
  intros Hne. induction n as [|n IH]; intros pos trace g.
  - simpl. unfold ret, advance. rewrite app_nil_r, Nat.add_0_r. by destruct g.
  - cbn [run_steps]. unfold bindM at 1. rewrite sample_move_spec by done.
    set (t := Z.min _ _).
    unfold bindM at 1. rewrite perceive_label_seen.
    rewrite IH. cbn [targets trace_of]. fold t.
    cbn [advance cursor draws].
    replace (cursor g + 1 + 1)%nat with (S (S (cursor g))) by lia.
    replace (cursor g + 1)%nat with (S (cursor g)) by lia.
    rewrite default_last_cons, <- app_assoc. cbn [app].
    do 2 f_equal. unfold advance. cbn. f_equal. lia.
Qed.

Lemma trace_of_positions (self : RobotSimulator R) (dr : nat -> R) (n : nat) :
  forall c pos, (trace_of self dr c n pos).*1.*1 = targets self dr c n pos.
Proof.
  induction n as [|n IH]; intros c pos; cbn; [done|]. by rewrite IH.
Qed.

Lemma length_trace_of (self : RobotSimulator R) (dr : nat -> R) (n : nat) :
  forall c pos, length (trace_of self dr c n pos) = n.
Proof. induction n as [|n IH]; intros c pos; cbn; [done|]. by rewrite IH. Qed.

Lemma trace_of_lookup (self : RobotSimulator R) (dr : nat -> R) (n : nat) :
  forall c pos i e,
  trace_of self dr c n pos !! i = Some e ->
  let prev := nth i (pos :: (trace_of self dr c n pos).*1.*1) 0 in
  let t := Z.min (prev + sample_of self (dr (c + 2 * i)%nat)) (max_pos self) in
  e = (t, true_label_at t,
       seen_of self (true_label_at t) (dr (c + 2 * i + 1)%nat)).
Proof.
  induction n as [|n IH]; intros c pos i e; cbn [trace_of]; [done|].
  destruct i as [|i].
  - cbn. intros [= <-]. by rewrite !Nat.add_0_r, Nat.add_1_r.
  - cbn [lookup list_lookup]. intros He.
    specialize (IH _ _ _ _ He). cbn zeta in IH.
    replace (c + 2 * S i)%nat with (S (S c) + 2 * i)%nat by lia.
    exact IH.
Qed.

Lemma run_steps_app (self : RobotSimulator R) (n k : nat) :
  forall pos trace g,
  run_steps self (n + k) pos trace g
  = match run_steps self n pos trace g with
    | Ok ((pos', trace'), g') => run_steps self k pos' trace' g'
    | Raise e => Raise e
    end.
Proof.
  induction n as [|n IH]; intros pos trace g; [done|].
  cbn [Nat.add run_steps]. unfold bindM.
  destruct (_sample_move self g) as [[m g1]|e]; [|done].
  destruct (perceive_label self _ g1) as [[seen g2]|e]; [|done].
  apply IH.
Qed.

(** X3.  The trace of a run has one entry per step.  Entry [i] is made from
    the draws number [2 i] and [2 i + 1] of the run: its position is the
    previous position plus the move sampled on the first, clamped at
    [max_pos]; its true label is the label of that position; its perceived
    label is the reading taken on the second. *)
Theorem run_single_trace_entries
    (mx : Z) (mp : option (list (Z * R))) (pw pc : R) (self : RobotSimulator R)
    (n_steps : Z) (g : Rng R) :
  __init__ mx mp pw pc = Ok self ->
  exists pos trace,
    run_single_trace self n_steps g
    = Ok ((pos, trace), advance g (2 * Z.to_nat n_steps))
    /\ length trace = Z.to_nat n_steps
    /\ forall i t tl pl,
         trace !! i = Some (t, tl, pl) ->
         exists m,
           _sample_move self (advance g (2 * i)) = Ok (m, advance g (2 * i + 1))
           /\ t = Z.min (position_before (trace.*1.*1) i + m) (max_pos self)
           /\ tl = true_label_at t
           /\ perceive_label self tl (advance g (2 * i + 1))
              = Ok (pl, advance g (2 * i + 2)).
Proof.
  intros Hinit.
  pose proof (init_moves_nonempty _ _ _ _ _ Hinit) as Hne.
  unfold run_single_trace. rewrite run_steps_trace by done. cbn [app].
  eexists _, _. split; [reflexivity|]. split; [apply length_trace_of|].
  intros i t tl pl He. apply trace_of_lookup in He. cbn zeta in He.
  set (t' := Z.min _ _) in He.
  assert (Ht : t = t') by congruence.
  assert (Htl : tl = true_label_at t') by congruence.
  assert (Hpl : pl = seen_of self (true_label_at t')
                       (draws g (cursor g + 2 * i + 1)%nat)) by congruence.
  clear He. subst t tl pl.
  exists (sample_of self (draws g (cursor g + 2 * i)%nat)).
  rewrite sample_move_spec, perceive_label_seen by done.
  rewrite !advance_advance. cbn [advance draws cursor].
  repeat split; try done.
  replace (cursor g + (2 * i + 1))%nat with (cursor g + 2 * i + 1)%nat by lia.
  by replace (2 * i + 1 + 1)%nat with (2 * i + 2)%nat by lia.
Qed.

Lemma seen_of_reliable (self : RobotSimulator R) (pos : Z) (u : R) :
  fleb u (p_correct_wall self) = true ->
  fleb u (p_correct_window self) = true ->
  seen_of self (true_label_at pos) u = true_label_at pos.
Proof.
  intros Hw Hc. unfold seen_of. rewrite Hw, Hc.
  by destruct (true_label_cases pos) as [[_ ->]|[_ ->]].
Qed.

(** X4.  When every perception draw of a run is at most [p_correct_wall]
    and at most [p_correct_window] (as with the default 1.0 and draws in
    [[0, 1)]), every entry of the trace perceives the true label of its
    position. *)
Theorem reliable_sensor_reads_truth
    (mx : Z) (mp : option (list (Z * R))) (pw pc : R) (self : RobotSimulator R)
    (n_steps : Z) (g : Rng R) :
  __init__ mx mp pw pc = Ok self ->
  (forall k, (k < Z.to_nat n_steps)%nat ->
             fleb (draws g (cursor g + 2 * k + 1)%nat) pw = true
             /\ fleb (draws g (cursor g + 2 * k + 1)%nat) pc = true) ->
  exists pos trace g',
    run_single_trace self n_steps g = Ok ((pos, trace), g')
    /\ Forall (fun e : trace_entry =>
                 e.2 = true_label_at e.1.1 /\ e.1.2 = true_label_at e.1.1)
              trace.
Proof.
  intros Hinit Hdr.
  pose proof (init_moves_nonempty _ _ _ _ _ Hinit) as Hne.
  assert (Hpw : p_correct_wall self = pw)
    by (rewrite init_spec in Hinit; by injection Hinit as <-).
  assert (Hpc : p_correct_window self = pc)
    by (rewrite init_spec in Hinit; by injection Hinit as <-).
  unfold run_single_trace. rewrite run_steps_trace by done. cbn [app].
  eexists _, _, _. split; [reflexivity|].
  apply Forall_lookup. intros i [[t tl] pl] He.
  pose proof (lookup_lt_Some _ _ _ He) as Hi. rewrite length_trace_of in Hi.
  apply trace_of_lookup in He. cbn zeta in He.
  set (t' := Z.min _ _) in He.
  assert (Ht : t = t') by congruence.
  assert (Htl : tl = true_label_at t') by congruence.
  assert (Hpl : pl = seen_of self (true_label_at t')
                       (draws g (cursor g + 2 * i + 1)%nat)) by congruence.
  clear He. subst t tl pl.
  cbn [fst snd]. destruct (Hdr i Hi) as [Hw Hc].
  rewrite <- Hpw in Hw. rewrite <- Hpc in Hc.
  split; [|done]. by apply seen_of_reliable.
Qed.

(** X5.  A longer run extends a shorter one: from the same state of the
    random source, the trace of [n] steps is the first [n] entries of the
    trace of [n + k] steps, and carrying on for [k] steps from where the
    short run stopped gives the long run. *)
Theorem run_single_trace_extends
    (mx : Z) (mp : option (list (Z * R))) (pw pc : R) (self : RobotSimulator R)
    (n k : Z) (g : Rng R) :
  __init__ mx mp pw pc = Ok self ->
  0 <= n -> 0 <= k ->
  exists pos1 tr1 g1 pos2 tr2 g2,
    run_single_trace self n g = Ok ((pos1, tr1), g1)
    /\ run_single_trace self (n + k) g = Ok ((pos2, tr2), g2)
    /\ tr1 = take (Z.to_nat n) tr2
    /\ run_steps self (Z.to_nat k) pos1 tr1 g1 = Ok ((pos2, tr2), g2).
Proof.
  intros Hinit Hn Hk.
  pose proof (init_moves_nonempty _ _ _ _ _ Hinit) as Hne.
  unfold run_single_trace.
  rewrite (Z2Nat.inj_add n k) by lia.
  rewrite run_steps_app.
  rewrite (run_steps_trace self (Z.to_nat n)) by done. cbn [app]. cbv beta iota.
  set (pos1 := default 0 _). set (tr1 := trace_of _ _ _ _ _).
  set (g1 := advance g _).
  pose proof (run_steps_trace self (Z.to_nat k) Hne pos1 tr1 g1) as Hk'.
  rewrite Hk'.
  eexists pos1, tr1, g1, _, _, _. split; [reflexivity|]. split; [reflexivity|].
  split; [|exact Hk'].
  rewrite take_app_length'; [done|symmetry; apply length_trace_of].
Qed.

End Sensor.

(** ** Construction *)

Section Construction.
Context {R : Type} `{Arith R}.

(** X6.  Constructing a simulator never fails.  A distribution that is left
    out or empty is replaced by the default [{0: 0.1, 1: 0.7, 2: 0.2}], any
    other is kept; the table of moves is never empty, holds the distances in
    ascending order and is as long as the table of cumulative
    probabilities. *)
Theorem init_never_raises
    (mx : Z) (mp : option (list (Z * R))) (pw pc : R) :
  exists self,
    __init__ mx mp pw pc = Ok self
    /\ max_pos self = mx
    /\ p_correct_wall self = pw
    /\ p_correct_window self = pc
    /\ (mp = None \/ mp = Some [] ->
        move_probs self = default_move_probs /\ _moves self = [0; 1; 2])
    /\ (forall d, d <> [] -> mp = Some d -> move_probs self = d)
    /\ _moves self <> []
    /\ Sorted Z.le (_moves self)
    /\ _moves self ≡ₚ (move_probs self).*1
    /\ length (_cum self) = length (_moves self).
Proof.
  eexists. split; [apply init_spec|].
  cbn [max_pos p_correct_wall p_correct_window move_probs _moves _cum].
  split; [done|]. split; [done|]. split; [done|].
  split; [by intros [->| ->]|].
  split; [intros d Hd ->; by destruct d|].
  split; [apply sorted_nonempty, effective_nonempty|].
  split; [apply sorted_Sorted|].
  split; [apply sorted_perm|apply length_cum_from].
Qed.

End Construction.

(** ** The cumulative table and the sampler *)

Section CdfFacts.
Context {R : Type} `{Arith R}.

Lemma fold_prob_of (d : list (Z * R)) (l : list Z) :
  forall a,
  fold_left (fun s m => fadd s (prob_of d m)) l a
  = fold_left fadd (prob_of d <$> l) a.
Proof. induction l as [|m l IH]; intros a; cbn; [done|]. apply IH. Qed.

Lemma prob_of_NoDup (d : list (Z * R)) (k : Z) (v : R) :
  NoDup (d.*1) -> (k, v) ∈ d -> prob_of d k = v.
Proof.
  unfold prob_of. induction d as [|[k' v'] d IH]; cbn; intros Hnd Hin.
  - by apply elem_of_nil in Hin.
  - apply NoDup_cons in Hnd as [Hk' Hnd].
    destruct (decide (k' = k)) as [->|Hne].
    + apply elem_of_cons in Hin as [[= ->]|Hin]; [done|].
      exfalso. apply Hk'. apply list_elem_of_fmap. by exists (k, v).
    + apply elem_of_cons in Hin as [[= -> ->]|Hin]; [done|]. by apply IH.
Qed.

Lemma filter_ext_in {A} (P Q : A -> Prop) `{!forall x, Decision (P x)}
    `{!forall x, Decision (Q x)} (l : list A) :
  Forall (fun x => P x <-> Q x) l -> filter P l = filter Q l.
Proof.
  induction 1 as [|x l Hx _ IH]; [done|].
  rewrite !filter_cons, IH.
  destruct (decide (P x)), (decide (Q x)); tauto.
Qed.

Lemma strictly_sorted (ms : list Z) :
  Sorted Z.le ms -> NoDup ms -> StronglySorted Z.lt ms.
Proof.
  intros Hs%(Sorted_StronglySorted _) Hnd.
  induction Hs as [|a l Hs IH Ha]; [constructor|].
  apply NoDup_cons in Hnd as [Ha' Hnd].
  constructor; [by apply IH|].
  rewrite Forall_forall in Ha |- *. intros x Hx.
  specialize (Ha x Hx). assert (a <> x) by (by intros ->). lia.
Qed.

Lemma filter_all_gt (ms : list Z) (a : Z) :
  Forall (Z.lt a) ms ->
  filter (fun x => x <= a) ms = [] /\ filter (fun x => x < a) ms = [].
Proof.
  induction 1 as [|x l Hx _ [IH1 IH2]]; [done|].
  rewrite !filter_cons.
  destruct (decide (x <= a)); [lia|]. destruct (decide (x < a)); [lia|]. done.
Qed.

Lemma take_filter (ms : list Z) :
  StronglySorted Z.lt ms ->
  forall i m, ms !! i = Some m ->
  take (S i) ms = filter (fun x => x <= m) ms
  /\ take i ms = filter (fun x => x < m) ms.
Proof.
  induction 1 as [|a l Hs IH Ha]; intros i m Hm; [done|].
  rewrite !filter_cons. destruct i as [|i]; cbn in Hm.
  - injection Hm as <-.
    destruct (filter_all_gt l a Ha) as [-> ->].
    destruct (decide (a <= a)); [|lia]. destruct (decide (a < a)); [lia|].
    cbn. by rewrite take_0.
  - destruct (IH i m Hm) as [IH1 IH2].
    assert (a < m).
    { rewrite Forall_forall in Ha. apply Ha. by eapply list_elem_of_lookup_2. }
    destruct (decide (a <= m)); [|lia]. destruct (decide (a < m)); [|lia].
    cbn [take]. by rewrite IH1, IH2.
Qed.

End CdfFacts.

Section CumulativeTable.
Context {R : Type} `{Arith R}.

Implicit Types (d : list (Z * R)) (ms : list Z).

Lemma sorted_strictly d : NoDup (d.*1) -> StronglySorted Z.lt (sorted d).
Proof.
  intros Hnd. apply strictly_sorted; [apply sorted_Sorted|].
  by rewrite (sorted_perm d).
Qed.

Lemma cum_is_cdf d (i : nat) (m : Z) :
  NoDup (d.*1) -> sorted d !! i = Some m ->
  fold_left (fun s m => fadd s (prob_of d m)) (take (S i) (sorted d)) f0
  = cdf_le d m
  /\ fold_left (fun s m => fadd s (prob_of d m)) (take i (sorted d)) f0
     = cdf_lt d m.
Proof.
  intros Hnd Hm.
  destruct (take_filter (sorted d) (sorted_strictly d Hnd) i m Hm) as [-> ->].
  by rewrite !fold_prob_of.
Qed.

Lemma cdf_split d (m : Z) :
  NoDup (d.*1) -> m ∈ d.*1 -> cdf_le d m = fadd (cdf_lt d m) (prob_of d m).
Proof.
  intros Hnd Hin. rewrite <- (sorted_perm d) in Hin.
  apply list_elem_of_lookup in Hin as [i Hm].
  destruct (cum_is_cdf d i m Hnd Hm) as [<- <-].
  by rewrite (take_S_r _ _ _ Hm), fold_left_app.
Qed.

Lemma cdf_not_key d (m : Z) :
  m ∉ d.*1 -> cdf_le d m = cdf_lt d m.
Proof.
  intros Hout. unfold cdf_le, cdf_lt. do 2 f_equal.
  apply filter_ext_in, Forall_forall. intros x Hx.
  rewrite (sorted_perm d) in Hx. assert (x <> m) by (by intros ->). lia.
Qed.

Lemma cum_from_last d ms :
  ms <> [] ->
  forall s,
  last (cum_from d s ms)
  = Some (fold_left (fun s m => fadd s (prob_of d m)) ms s).
Proof.
  induction ms as [|m ms IH]; intros Hne s; [done|].
  destruct ms as [|m' ms]; [done|].
  change (cum_from d s (m :: m' :: ms))
    with (fadd s (prob_of d m) :: cum_from d (fadd s (prob_of d m)) (m' :: ms)).
  change (last (?x :: cum_from d ?s' (m' :: ms)))
    with (last (cum_from d s' (m' :: ms))).
  by rewrite IH.
Qed.

Lemma prob_of_nonneg `{!AddLaws R} d (m : Z) :
  Forall (fun e => fleb f0 e.2 = true) d -> fleb f0 (prob_of d m) = true.
Proof.
  intros Hnn. unfold prob_of.
  induction Hnn as [|[k v] d Hv _ IH]; cbn; [apply fleb_0_0|].
  by destruct (decide (k = m)).
Qed.

Lemma cum_from_ascending `{!AddLaws R} d ms :
  Forall (fun m => fleb f0 (prob_of d m) = true) ms ->
  forall s,
  fleb f0 s = true ->
  ascending (cum_from d s ms)
  /\ Forall (fun c => fleb f0 c = true) (cum_from d s ms)
  /\ forall c, head (cum_from d s ms) = Some c -> fleb s c = true.
Proof.
  induction 1 as [|m ms Hm _ IH]; intros s Hs; cbn [cum_from].
  - split; [constructor|]. split; [constructor|done].
  - destruct (IH (fadd s (prob_of d m)) (fadd_nonneg _ _ Hs Hm))
      as (IH1 & IH2 & IH3).
    split; [|split].
    + constructor; [exact IH1|].
      destruct (cum_from d _ ms) as [|c cs]; constructor. by apply IH3.
    + constructor; [by apply fadd_nonneg|exact IH2].
    + intros c [= <-]. by apply fadd_increasing.
Qed.

(** X7.  With distinct distances the table built by [_build_cdf] is the
    table of the running totals in ascending order of the distance: the
    distances are in strictly ascending order, entry [i] of [_cum] is the
    total of the probabilities of the distances of at most [_moves[i]], added
    up from [0.0] in that order, and the last entry is the total of all the
    probabilities added up in that order.  Where sums of floats that are at
    least [0.0] obey the laws of [AddLaws] and every probability is at least
    [0.0], the entries never decrease and none is below [0.0]. *)
Theorem build_cdf_is_cumulative
    (mx : Z) (mp : option (list (Z * R))) (pw pc : R) (self : RobotSimulator R) :
  __init__ mx mp pw pc = Ok self ->
  NoDup ((move_probs self).*1) ->
  StronglySorted Z.lt (_moves self)
  /\ (forall i m, _moves self !! i = Some m ->
                  _cum self !! i = Some (cdf_le (move_probs self) m))
  /\ last (_cum self)
     = Some (fsum (prob_of (move_probs self) <$> _moves self))
  /\ (AddLaws R ->
      Forall (fun e => fleb f0 e.2 = true) (move_probs self) ->
      ascending (_cum self)
      /\ Forall (fun c => fleb f0 c = true) (_cum self)).
Proof.
  rewrite init_spec. intros [= <-]. cbn [move_probs _moves _cum].
  set (d := effective mp). intros Hnd.
  split; [by apply sorted_strictly|]. split; [|split].
  - intros i m Hm. pose proof (lookup_lt_Some _ _ _ Hm) as Hi.
    rewrite cum_from_lookup by done. f_equal.
    by apply (cum_is_cdf d i m).
  - rewrite cum_from_last by apply sorted_nonempty, effective_nonempty.
    by rewrite fold_prob_of.
  - intros Hlaws Hnn.
    destruct (cum_from_ascending d (sorted d)) with (s := f0 : R)
      as (Hasc & Hge & _); [|apply fleb_0_0|done].
    apply Forall_forall. intros m _. by apply prob_of_nonneg.
Qed.

End CumulativeTable.

Section InverseCdf.
Context {R : Type} `{LeLaws R}.

Implicit Types (d : list (Z * R)) (ms : list Z).

#[local] Instance fleb_transitive : Transitive (fun a b : R => fleb a b = true).
Proof. intros x y z. apply fleb_trans. Qed.

Lemma ascending_lookup (cs : list R) (i j : nat) (a b : R) :
  ascending cs -> (i < j)%nat -> cs !! i = Some a -> cs !! j = Some b ->
  fleb a b = true.
Proof.
  intros Hs%(Sorted_StronglySorted _). revert i j.
  induction Hs as [|c cs Hs IH Hc]; intros i j Hij Hi Hj; [done|].
  destruct j as [|j]; [lia|]. cbn in Hj. destruct i as [|i].
  - injection Hi as <-. rewrite Forall_forall in Hc.
    apply Hc. by eapply list_elem_of_lookup_2.
  - cbn in Hi. apply (IH i j); [lia|done..].
Qed.

(** The entry of the table a draw meets first, when the table reaches it. *)
Lemma sample_at (self : RobotSimulator R) (u : R) (j : nat) (m : Z) (c : R) :
  length (_cum self) = length (_moves self) ->
  ascending (_cum self) ->
  _moves self !! j = Some m -> _cum self !! j = Some c ->
  fleb u c = true ->
  (forall c', (0 < j)%nat -> _cum self !! pred j = Some c' -> fleb u c' = false) ->
  sample_of self u = m.
Proof.
  intros Hlen Hasc Hm Hc Hle Hprev. unfold sample_of.
  destruct (first_reached u _) as [m'|] eqn:E.
  - apply first_reached_Some in E as (i & c' & Hm' & Hc' & Hle' & Hlt).
    destruct (lt_eq_lt_dec i j) as [[Hij| ->]|Hji].
    + exfalso. destruct j as [|j]; [lia|].
      assert (Hj : is_Some (_cum self !! j)).
      { apply lookup_lt_is_Some. apply lookup_lt_Some in Hc. lia. }
      destruct Hj as [b Hb].
      assert (Hub : fleb u b = true).
      { destruct (decide (i = j)) as [->|Hne].
        - rewrite Hb in Hc'. by injection Hc' as ->.
        - eapply fleb_trans; [exact Hle'|].
          apply (ascending_lookup (_cum self) i j); [done|lia|done..]. }
      rewrite (Hprev b) in Hub; [done|lia|done].
    + rewrite Hm in Hm'. by injection Hm'.
    + exfalso. by rewrite (Hlt j c Hji Hc) in Hle.
  - exfalso.
    pose proof (first_reached_None u (_moves self) _ Hlen E c
                  (list_elem_of_lookup_2 _ _ _ Hc)) as Hn.
    by rewrite Hn in Hle.
Qed.

Lemma init_tables (mx : Z) (mp : option (list (Z * R))) (pw pc : R)
    (self : RobotSimulator R) :
  __init__ mx mp pw pc = Ok self ->
  move_probs self = effective mp
  /\ _moves self = sorted (move_probs self)
  /\ _cum self = cum_from (move_probs self) f0 (sorted (move_probs self)).
Proof. rewrite init_spec. by intros [= <-]. Qed.

(** X8.  The sampler is an inverse-CDF sampler on the table of the running
    totals.  With distinct distances and a table that never decreases, a
    draw [u] that is above [0.0] and reached by the last entry of the table
    selects the distance [m] exactly when [u] lies between the running total
    before [m] (excluded) and the running total after [m] (included), two
    totals that differ by the addition of the probability of [m]. *)
Theorem sample_move_interval
    (mx : Z) (mp : option (list (Z * R))) (pw pc : R)
    (self : RobotSimulator R) (g : Rng R) (m : Z) :
  __init__ mx mp pw pc = Ok self ->
  NoDup ((move_probs self).*1) ->
  ascending (_cum self) ->
  let u := draws g (cursor g) in
  fleb u f0 = false ->
  (forall c, last (_cum self) = Some c -> fleb u c = true) ->
  (_sample_move self g = Ok (m, advance g 1)
   <-> fleb u (cdf_lt (move_probs self) m) = false
       /\ fleb u (cdf_le (move_probs self) m) = true)
  /\ (m ∈ (move_probs self).*1 ->
      cdf_le (move_probs self) m
      = fadd (cdf_lt (move_probs self) m) (prob_of (move_probs self) m)).
Proof.
  intros Hinit Hnd Hasc u Hu0 Hu1.
  pose proof (init_moves_nonempty _ _ _ _ _ Hinit) as Hne.
  destruct (init_tables _ _ _ _ _ Hinit) as (_ & Hms & Hcs).
  set (d := move_probs self) in *.
  assert (Hlen : length (_cum self) = length (_moves self)).
  { by rewrite Hcs, Hms, length_cum_from. }
  assert (Hentry : forall i k, _moves self !! i = Some k ->
            _cum self !! i = Some (cdf_le d k)
            /\ forall c', (0 < i)%nat -> _cum self !! pred i = Some c' ->
                          c' = cdf_lt d k).
  { intros i k Hk. rewrite Hms in Hk.
    pose proof (lookup_lt_Some _ _ _ Hk) as Hi.
    destruct (cum_is_cdf d i k Hnd Hk) as [Hle Hlt].
    rewrite Hcs. split.
    - rewrite cum_from_lookup by done. by rewrite Hle.
    - intros c' Hpos. destruct i as [|i]; [lia|]. cbn [pred].
      rewrite cum_from_lookup by lia. rewrite Hlt. by intros [= <-]. }
  rewrite sample_move_spec by done. fold u.
  split; [|by apply cdf_split].
  split.
  - intros [= <-].
    pose proof (sample_of_elem self u Hne) as Hin.
    unfold sample_of in *.
    destruct (first_reached u _) as [m|] eqn:E.
    + apply first_reached_Some in E as (i & c & Hm & Hc & Hle & Hlt).
      destruct (Hentry i m Hm) as [Hci Hprev].
      rewrite Hci in Hc. injection Hc as <-. split; [|done].
      destruct i as [|i].
      * rewrite Hms in Hm.
        destruct (cum_is_cdf d 0 m Hnd Hm) as [_ <-]. by rewrite take_0.
      * assert (Hj : is_Some (_cum self !! i)).
        { apply lookup_lt_is_Some. apply lookup_lt_Some in Hm. lia. }
        destruct Hj as [b Hb].
        rewrite <- (Hprev b ltac:(lia) Hb). apply (Hlt i b); [lia|done].
    + exfalso.
      pose proof (first_reached_None u (_moves self) _ Hlen E) as Hall.
      destruct (last (_cum self)) as [c|] eqn:Hl.
      * specialize (Hu1 c eq_refl). rewrite Hall in Hu1; [done|].
        apply last_Some in Hl as [cs' ->]. apply elem_of_app. right.
        by apply list_elem_of_singleton.
      * apply last_None in Hl. rewrite Hl in Hlen. cbn in Hlen.
        by destruct (_moves self).
  - intros [Hlt Hle]. do 2 f_equal.
    destruct (decide (m ∈ d.*1)) as [Hin|Hout].
    + rewrite <- (sorted_perm d), <- Hms in Hin.
      apply list_elem_of_lookup in Hin as [j Hm].
      destruct (Hentry j m Hm) as [Hcj Hprev].
      apply (sample_at self u j m (cdf_le d m)); try done.
      intros c' Hpos Hc'. by rewrite (Hprev c' Hpos Hc').
    + rewrite (cdf_not_key d m Hout) in Hle. by rewrite Hle in Hlt.
Qed.

(** X9.  Draws outside the table.  When the table never decreases and none
    of its entries is below [0.0], a draw [u <= 0.0] selects the smallest
    distance, whatever its probability (even 0), and a draw that the last
    entry of the table does not reach selects the largest distance. *)
Theorem sample_move_out_of_range
    (mx : Z) (mp : option (list (Z * R))) (pw pc : R)
    (self : RobotSimulator R) (g : Rng R) :
  __init__ mx mp pw pc = Ok self ->
  ascending (_cum self) ->
  Forall (fun c => fleb f0 c = true) (_cum self) ->
  let u := draws g (cursor g) in
  exists m,
    _sample_move self g = Ok (m, advance g 1)
    /\ m ∈ (move_probs self).*1
    /\ (fleb u f0 = true ->
        forall m', m' ∈ (move_probs self).*1 -> m <= m')
    /\ ((forall c, last (_cum self) = Some c -> fleb u c = false) ->
        forall m', m' ∈ (move_probs self).*1 -> m' <= m).
Proof.
  intros Hinit Hasc Hge u.
  pose proof (init_moves_nonempty _ _ _ _ _ Hinit) as Hne.
  destruct (init_tables _ _ _ _ _ Hinit) as (_ & Hms & Hcs).
  set (d := move_probs self) in *.
  assert (Hlen : length (_cum self) = length (_moves self)).
  { by rewrite Hcs, Hms, length_cum_from. }
  exists (sample_of self u).
  split; [by apply sample_move_spec|].
  pose proof (sample_of_elem self u Hne) as Hin.
  split; [by rewrite <- (sorted_perm d), <- Hms|].
  split.
  - intros Hu m' Hm'. rewrite <- (sorted_perm d), <- Hms in Hm'.
    pose proof (sorted_Sorted d) as Hs%(Sorted_StronglySorted _).
    rewrite <- Hms in Hs. unfold sample_of.
    destruct (_moves self) as [|a ms]; [done|].
    destruct (_cum self) as [|c cs]; [done|].
    cbn [zip_with first_reached].
    apply Forall_cons in Hge as [Hc _].
    rewrite (fleb_trans u f0 c Hu Hc).
    apply elem_of_cons in Hm' as [->|Hm']; [done|].
    apply StronglySorted_inv in Hs as [_ Ha]. rewrite Forall_forall in Ha.
    by apply Ha.
  - intros Hu m' Hm'. rewrite <- (sorted_perm d), <- Hms in Hm'.
    unfold sample_of. replace (first_reached u _) with (@None Z).
    + destruct (last (_moves self)) as [x|] eqn:Hl.
      * cbn. apply (sorted_last_max (_moves self)); [|done..].
        rewrite Hms. apply sorted_Sorted.
      * by apply last_None in Hl.
    + symmetry. 
      destruct (first_reached u _) as [k|] eqn:E; [exfalso|done].
      apply first_reached_Some in E as (i & c & Hk & Hc & Hle & _).
      destruct (last (_cum self)) as [b|] eqn:Hl.
      * specialize (Hu b eq_refl).
        rewrite last_lookup in Hl.
        destruct (decide (i = pred (length (_cum self)))) as [->|Hne'].
        -- rewrite Hl in Hc. injection Hc as ->. by rewrite Hu in Hle.
        -- pose proof (lookup_lt_Some _ _ _ Hc) as Hi.
           assert (Hub : fleb u b = true).
           { eapply fleb_trans; [exact Hle|].
             apply (ascending_lookup (_cum self) i (pred (length (_cum self))));
               [done|lia|done..]. }
           by rewrite Hu in Hub.
      * apply last_None in Hl. by rewrite Hl in Hc.
Qed.

End InverseCdf.

(** ** Arguments outside the intended range *)

Section EdgeCases.
Context {R : Type} `{Arith R}.

Lemma range_nonpos (n : Z) : n <= 0 -> range n = [].
Proof.
  intros Hn. unfold range, seqZ. by replace (Z.to_nat n) with 0%nat by lia.
Qed.

Lemma range_pos (n : Z) : 0 < n -> range n = 0 :: seqZ 1 (n - 1).
Proof. intros Hn. unfold range. by rewrite seqZ_cons by lia. Qed.

(** X10.  Whenever [trials] is not 0, [simulate] returns a value for each
    of the positions [0 .. max_pos], in ascending order, and leaves the
    random source advanced by exactly two draws per step of every trial. *)
Theorem simulate_consumes_draws
    (mx : Z) (mp : option (list (Z * R))) (pw pc : R) (self : RobotSimulator R)
    (n_steps trials : Z) (g : Rng R) :
  __init__ mx mp pw pc = Ok self ->
  trials <> 0 ->
  exists probs,
    simulate self n_steps trials g
    = Ok (probs, advance g (2 * Z.to_nat n_steps * Z.to_nat trials))
    /\ probs.*1 = range (max_pos self + 1).
Proof.
  intros Hinit Ht.
  pose proof (init_moves_nonempty _ _ _ _ _ Hinit) as Hne.
  eexists. split; [by apply simulate_spec|]. apply table_keys.
Qed.

(** X11.  A negative number of trials is not rejected: no trial is run, no
    draw is consumed, and every position gets the quotient [0 / trials]. *)
Theorem simulate_negative_trials
    (mx : Z) (mp : option (list (Z * R))) (pw pc : R) (self : RobotSimulator R)
    (n_steps trials : Z) (g : Rng R) :
  __init__ mx mp pw pc = Ok self ->
  trials < 0 ->
  simulate self n_steps trials g
  = Ok ((fun pos => (pos, int_truediv 0 trials)) <$> range (max_pos self + 1), g).
Proof.
  intros Hinit Ht.
  pose proof (init_moves_nonempty _ _ _ _ _ Hinit) as Hne.
  rewrite simulate_spec by (done || lia).
  replace (Z.to_nat trials) with 0%nat by lia.
  rewrite Nat.mul_0_r, advance_0. done.
Qed.

(** X12.  With a negative [max_pos] there is no position to report:
    [simulate] runs its trials and returns the empty dict, for every number
    of trials, 0 included (no division takes place), whereas
    [compute_exact_posterior] raises [IndexError] at [dist[0] = 1.0]. *)
Theorem negative_max_pos
    (mx : Z) (mp : option (list (Z * R))) (pw pc : R) (self : RobotSimulator R)
    (n_steps trials : Z) (g : Rng R) :
  __init__ mx mp pw pc = Ok self ->
  mx < 0 ->
  simulate self n_steps trials g
  = Ok ([], advance g (2 * Z.to_nat n_steps * Z.to_nat trials))
  /\ compute_exact_posterior self n_steps = Raise IndexError.
Proof.
  intros Hinit Hmx.
  pose proof (init_moves_nonempty _ _ _ _ _ Hinit) as Hne.
  assert (Hmax : max_pos self = mx)
    by (rewrite init_spec in Hinit; by injection Hinit as <-).
  split.
  - unfold simulate, bindM. rewrite run_trials_spec by done.
    rewrite Hmax, range_nonpos by lia. done.
  - unfold compute_exact_posterior, transition_matrix.
    rewrite Hmax, range_nonpos by lia. cbn [for_each bindR].
    replace (Z.to_nat (mx + 1)) with 0%nat by lia. done.
Qed.

Lemma for_each_app {A S} (body : S -> A -> result S) (xs ys : list A) :
  forall s,
  for_each body (xs ++ ys) s = (s' <- for_each body xs s;; for_each body ys s').
Proof.
  induction xs as [|x xs IH]; intros s; [done|].
  cbn. destruct (body s x); [apply IH|done].
Qed.

Lemma neg_free_init (mx : Z) :
  neg_free
    (list_to_map
       ((fun pos => (pos, list_to_map ((fun s => (s, f0)) <$> range (mx + 1))))
          <$> range (mx + 1)) : gmap Z (gmap Z R)).
Proof.
  intros p row s Hrow Hs.
  apply elem_of_list_to_map_2, list_elem_of_fmap in Hrow as (p' & [= -> ->] & _).
  apply not_elem_of_list_to_map_1.
  rewrite <- list_fmap_compose.
  intros (s' & -> & Hs')%list_elem_of_fmap. apply elem_of_range in Hs'.
  cbn in Hs. lia.
Qed.

Lemma add_move_neg_free (self : RobotSimulator R) (pos : Z)
    (T T' : gmap Z (gmap Z R)) (e : Z * R) :
  neg_free T -> add_move self pos T e = Ok T' -> neg_free T'.
Proof.
  intros Hnf. unfold add_move, map_getitem.
  destruct (T !! pos) as [row|] eqn:Hrow; [|done]. cbn [bindR].
  destruct (row !! _) as [old|] eqn:Hold; [|done]. cbn [bindR].
  intros [= <-] p row' s Hp Hs.
  destruct (decide (pos = p)) as [->|Hne].
  - rewrite lookup_insert_eq in Hp. injection Hp as <-.
    rewrite lookup_insert_ne; [by eapply Hnf|].
    intros Heq. rewrite Heq, (Hnf _ _ _ Hrow Hs) in Hold. done.
  - rewrite lookup_insert_ne in Hp by done. by eapply Hnf.
Qed.

Lemma row_neg_free (self : RobotSimulator R) (pos : Z) (l : list (Z * R)) :
  forall T T',
  neg_free T -> for_each (add_move self pos) l T = Ok T' -> neg_free T'.
Proof.
  induction l as [|e l IH]; intros T T' Hnf; cbn; [by intros [= <-]|].
  destruct (add_move self pos T e) as [T1|] eqn:E; [|done]. cbn [bindR].
  apply IH. by eapply add_move_neg_free.
Qed.

Lemma split_first_negative (l : list (Z * R)) :
  Exists (fun e => e.1 < 0) l ->
  exists l1 e l2,
    l = l1 ++ e :: l2 /\ Forall (fun e => 0 <= e.1) l1 /\ e.1 < 0.
Proof.
  induction l as [|a l IH]; intros Hex; [by inversion Hex|].
  destruct (decide (a.1 < 0)) as [Ha|Ha].
  - by exists [], a, l.
  - inversion Hex as [? ? Hneg|? ? Hex']; subst; [done|].
    destruct (IH Hex') as (l1 & e & l2 & -> & Hl1 & He).
    exists (a :: l1), e, l2. split; [done|]. split; [|done].
    constructor; [lia|done].
Qed.

Lemma transition_matrix_key_error (self : RobotSimulator R) :
  0 <= max_pos self ->
  Exists (fun e => e.1 < 0) (move_probs self) ->
  transition_matrix self = Raise KeyError.
Proof.
  intros Hmx (l1 & e & l2 & Hl & Hl1 & He)%split_first_negative.
  unfold transition_matrix. rewrite range_pos by lia.
  cbn [for_each]. rewrite <- range_pos by lia.
  rewrite Hl, for_each_app.
  destruct (row_loop self 0 l1 ltac:(lia) Hl1 _ _ (matrix_init (max_pos self)))
    as (T' & HT' & Hmat).
  rewrite HT'. cbn [bindR for_each].
  pose proof (row_neg_free self 0 l1 _ _ (neg_free_init (max_pos self)) HT')
    as Hnf.
  destruct (Hmat 0 ltac:(lia)) as (row & Hrow & _).
  unfold add_move at 1, map_getitem. rewrite Hrow. cbn [bindR].
  replace (Z.min (0 + e.1) (max_pos self)) with (e.1) by lia.
  by rewrite (Hnf 0 row (e.1) Hrow He).
Qed.

(** X13.  With [max_pos >= 0], [compute_exact_posterior] raises [KeyError]
    exactly when some distance of the movement distribution is negative (the
    target of the move from position 0 is then no key of [T[0]]); with
    non-negative distances it returns a value for each of the positions
    [0 .. max_pos]. *)
Theorem exact_posterior_key_error
    (self : RobotSimulator R) (n_steps : Z) :
  0 <= max_pos self ->
  (compute_exact_posterior self n_steps = Raise KeyError
   <-> Exists (fun e => e.1 < 0) (move_probs self))
  /\ (Forall (fun e => 0 <= e.1) (move_probs self) ->
      exists pd, compute_exact_posterior self n_steps = Ok pd
                 /\ pd.*1 = range (max_pos self + 1)).
Proof.
  intros Hmx.
  assert (Hok : Forall (fun e => 0 <= e.1) (move_probs self) ->
                exists pd, compute_exact_posterior self n_steps = Ok pd
                           /\ pd.*1 = range (max_pos self + 1)).
  { intros Hnn. eexists. split; [by apply compute_exact_posterior_spec|].
    apply table_keys. }
  split; [|exact Hok]. split.
  - intros Hraise.
    destruct (decide (Exists (fun e : Z * R => e.1 < 0) (move_probs self)))
      as [Hex|Hex]; [done|].
    apply Forall_Exists_neg in Hex.
    destruct Hok as (pd & Hpd & _); [|by rewrite Hpd in Hraise].
    eapply Forall_impl; [exact Hex|]. cbn. lia.
  - intros Hex. unfold compute_exact_posterior.
    by rewrite transition_matrix_key_error.
Qed.

End EdgeCases.

Section Backward.
Context {R : Type} `{UnitLaws R}.

Lemma walk_backward (d mx : Z) (n : nat) :
  d < 0 -> 0 <= mx -> walk d mx n 0 = Z.of_nat n * d.
Proof.
  intros Hd Hmx. unfold walk. induction n as [|n IH]; [cbn; lia|].
  rewrite Nat.iter_succ, IH. nia.
Qed.

(** X14.  A distribution that always moves backwards, [{d: 1.0}] with
    [d < 0], takes the robot off the track: after one step or more every run
    ends at a negative position, [simulate] reports the value 0.0 at every
    position of [0 .. max_pos], and [compute_exact_posterior] raises
    [KeyError]. *)
Theorem backward_moves_lose_all_mass
    (mx d : Z) (pw pc : R) (self : RobotSimulator R)
    (n_steps trials : Z) (g : Rng R) :
  __init__ mx (Some [(d, f1)]) pw pc = Ok self ->
  d < 0 ->
  0 <= mx ->
  1 <= n_steps ->
  1 <= trials ->
  run_single self n_steps g
  = Ok (n_steps * d, advance g (2 * Z.to_nat n_steps))
  /\ simulate self n_steps trials g
     = Ok ((fun pos => (pos, f0)) <$> range (mx + 1),
           advance g (2 * Z.to_nat n_steps * Z.to_nat trials))
  /\ compute_exact_posterior self n_steps = Raise KeyError.
Proof.
  intros Hinit Hd Hmx Hn Ht.
  pose proof (init_moves_nonempty _ _ _ _ _ Hinit) as Hne.
  rewrite init_spec in Hinit. injection Hinit as <-.
  set (self := {| max_pos := mx |}) in *.
  assert (Hsample : forall u, sample_of self u = d).
  { intros u. unfold sample_of. cbn. by destruct (fleb _ _). }
  assert (Hq : forall dr c, final_of self dr c (Z.to_nat n_steps) = n_steps * d).
  { intros dr c. unfold final_of. rewrite (targets_walk self _ d) by done.
    cbn [max_pos self]. rewrite walk_backward by done. lia. }
  split; [|split].
  - rewrite run_single_spec by done. by rewrite Hq.
  - rewrite (simulate_point_mass self n_steps trials g (n_steps * d))
      by (done || intros; apply Hq).
    f_equal. f_equal. unfold point_mass. cbn [max_pos self].
    apply list_fmap_ext. intros i pos Hpos%list_elem_of_lookup_2%elem_of_range.
    f_equal. rewrite decide_False; [done|]. nia.
  - unfold compute_exact_posterior.
    rewrite transition_matrix_key_error; [done|cbn; lia|].
    apply Exists_cons_hd. cbn. lia.
Qed.

End Backward.

(** ** The shape of the transition matrix *)

Section MatrixShape.
Context {R : Type} `{Arith R}.

Lemma T_entry_none (self : RobotSimulator R) (p s : Z) :
  Forall (fun e => Z.min (p + e.1) (max_pos self) <> s) (move_probs self) ->
  T_entry self p s = f0.
Proof.
  intros Hne. unfold T_entry, target_of.
  replace (filter _ (move_probs self)) with (@nil (Z * R)); [done|].
  symmetry. induction Hne as [|e l He _ IH]; [done|].
  rewrite filter_cons. cbn [fst]. by destruct (decide _).
Qed.

Lemma T_entry_all (self : RobotSimulator R) (p s : Z) :
  Forall (fun e => Z.min (p + e.1) (max_pos self) = s) (move_probs self) ->
  T_entry self p s = fsum ((move_probs self).*2).
Proof.
  intros Hall. unfold T_entry, target_of. do 2 f_equal.
  induction Hall as [|e l He _ IH]; [done|].
  rewrite filter_cons. cbn [fst]. destruct (decide _); [by rewrite IH|done].
Qed.

(** X15.  The robot never moves back and the last square is absorbing, in
    the matrix itself and over any arithmetic: with non-negative distances,
    [T[p][s]] is 0.0 for every destination [s] below the source [p], and
    [T[max_pos][max_pos]] is the sum of all the probabilities, added up in
    the order of the dict. *)
Theorem transition_matrix_triangular (self : RobotSimulator R) :
  0 <= max_pos self ->
  Forall (fun e => 0 <= e.1) (move_probs self) ->
  exists T,
    transition_matrix self = Ok T
    /\ (forall p s, 0 <= s < p -> p <= max_pos self ->
          exists row, T !! p = Some row /\ row !! s = Some f0)
    /\ (exists row, T !! max_pos self = Some row
                    /\ row !! max_pos self
                       = Some (fsum ((move_probs self).*2))).
Proof.
  intros Hmx Hnn.
  destruct (transition_matrix_spec self Hnn) as (T & HT & Hmat).
  exists T. split; [done|]. split.
  - intros p s Hs Hp. destruct (Hmat p ltac:(lia)) as (row & Hrow & Hent).
    exists row. split; [done|]. rewrite Hent by lia. f_equal.
    apply T_entry_none. eapply Forall_impl; [exact Hnn|]. cbn. lia.
  - destruct (Hmat (max_pos self) ltac:(lia)) as (row & Hrow & Hent).
    exists row. split; [done|]. rewrite Hent by lia. f_equal.
    apply T_entry_all. eapply Forall_impl; [exact Hnn|]. cbn. lia.
Qed.

End MatrixShape.

(** ** The recurrence of the exact posterior *)

Section Recurrence.
Context {R : Type} `{Arith R}.

Lemma fold_left_table {A B C} (f : A -> B -> A) (g : C -> B) (l : list C) :
  forall a, fold_left f (g <$> l) a = fold_left (fun acc x => f acc (g x)) l a.
Proof. induction l as [|x l IH]; intros a; [done|]. cbn. apply IH. Qed.

(** X17.  One more step is one more pass of the dynamic programme over the
    result: the value at [s] after [n + 1] steps is obtained from the table
    [pd] after [n] steps by adding up from [0.0], in ascending order of the
    position [p], the products [pd[p] * T[p][s]] of the positions whose
    value is not [0.0]. *)
Theorem exact_posterior_recurrence (self : RobotSimulator R) (n_steps : Z) :
  0 <= max_pos self ->
  Forall (fun e => 0 <= e.1) (move_probs self) ->
  0 <= n_steps ->
  exists pd pd',
    compute_exact_posterior self n_steps = Ok pd
    /\ compute_exact_posterior self (n_steps + 1) = Ok pd'
    /\ pd' = (fun s => (s, next_entry self pd s)) <$> range (max_pos self + 1).
Proof.
  intros Hmx Hnn Hn. eexists _, _.
  split; [by apply compute_exact_posterior_spec|].
  split; [by apply compute_exact_posterior_spec|].
  apply list_fmap_ext. intros i s _. f_equal.
  replace (Z.to_nat (n_steps + 1)) with (S (Z.to_nat n_steps)) by lia.
  change (posterior_fn self (S ?n)) with (step_fn self (posterior_fn self n)).
  unfold next_entry. by rewrite fold_left_table.
Qed.

End Recurrence.

(** ** Batches of trials *)

Section Pooling.
Context {R : Type} `{Arith R}.

Lemma finals_app (self : RobotSimulator R) (dr : nat -> R) (n a b : nat) :
  forall c,
  finals self dr c n (a + b)
  = finals self dr c n a ++ finals self dr (c + 2 * n * a) n b.
Proof.
  induction a as [|a IH]; intros c; cbn [Nat.add finals app].
  - f_equal. lia.
  - rewrite IH. do 3 f_equal. lia.
Qed.

Lemma occurrences_app (pos : Z) (l l' : list Z) :
  occurrences pos (l ++ l') = (occurrences pos l + occurrences pos l')%nat.
Proof. unfold occurrences. by rewrite filter_app, length_app. Qed.

(** X22.  The estimate depends on the draws only: from the same state of
    the random source, one call with [a + b] trials counts, at every
    position, the runs of a call with [a] trials plus the runs of a following
    call with [b] trials, and leaves the random source where the second call
    leaves it. *)
Theorem simulate_pools_batches
    (mx : Z) (mp : option (list (Z * R))) (pw pc : R) (self : RobotSimulator R)
    (n_steps a b : Z) (g : Rng R) :
  __init__ mx mp pw pc = Ok self ->
  1 <= a -> 1 <= b ->
  exists (c1 c2 : Z -> nat) p1 g1 p2 g2 p,
    simulate self n_steps a g = Ok (p1, g1)
    /\ simulate self n_steps b g1 = Ok (p2, g2)
    /\ simulate self n_steps (a + b) g = Ok (p, g2)
    /\ p1 = (fun pos => (pos, int_truediv (Z.of_nat (c1 pos)) a))
              <$> range (max_pos self + 1)
    /\ p2 = (fun pos => (pos, int_truediv (Z.of_nat (c2 pos)) b))
              <$> range (max_pos self + 1)
    /\ p = (fun pos => (pos, int_truediv (Z.of_nat (c1 pos + c2 pos)) (a + b)))
             <$> range (max_pos self + 1).
Proof.
  intros Hinit Ha Hb.
  pose proof (init_moves_nonempty _ _ _ _ _ Hinit) as Hne.
  set (n := Z.to_nat n_steps).
  exists (fun pos => occurrences pos (finals self (draws g) (cursor g) n (Z.to_nat a))),
    (fun pos => occurrences pos
                  (finals self (draws g) (cursor g + 2 * n * Z.to_nat a) n
                     (Z.to_nat b))).
  eexists _, _, _, _, _.
  split; [apply simulate_spec; [done|lia]|].
  split; [apply simulate_spec; [done|lia]|].
  split; [|split; [done|split; [done|]]].
  - rewrite simulate_spec by (done || lia). f_equal. f_equal.
    rewrite advance_advance. f_equal. lia.
  - apply list_fmap_ext. intros i pos _. f_equal. f_equal. f_equal.
    rewrite (Z2Nat.inj_add a b) by lia. fold n.
    by rewrite finals_app, occurrences_app.
Qed.

End Pooling.

Section SingleTrial.
Context {R : Type} `{UnitLaws R}.

(** X23.  An estimate from a single trial is the point mass at the position
    the run ends at: [simulate(n_steps, trials=1)] returns 1.0 at the position
    [run_single(n_steps)] returns from the same state of the random source,
    and 0.0 elsewhere. *)
Theorem single_trial_is_point_mass
    (mx : Z) (mp : option (list (Z * R))) (pw pc : R) (self : RobotSimulator R)
    (n_steps : Z) (g : Rng R) :
  __init__ mx mp pw pc = Ok self ->
  exists pos g',
    run_single self n_steps g = Ok (pos, g')
    /\ simulate self n_steps 1 g = Ok (point_mass (max_pos self) pos, g').
Proof.
  intros Hinit.
  pose proof (init_moves_nonempty _ _ _ _ _ Hinit) as Hne.
  eexists _, _. split; [by apply run_single_spec|].
  rewrite simulate_spec by done.
  change (Z.to_nat 1) with 1%nat. rewrite Nat.mul_1_r. f_equal. f_equal.
  unfold point_mass. apply list_fmap_ext. intros i pos _. f_equal.
  cbn [finals]. rewrite occurrences_cons. unfold occurrences.
  rewrite filter_nil. cbn [length]. rewrite Nat.add_0_r.
  destruct (decide (final_of _ _ _ _ = pos)) as [->|Hne'].
  - rewrite decide_True by done. by apply truediv_same.
  - rewrite decide_False by done. by apply truediv_zero.
Qed.

End SingleTrial.

(** ** The order of the items of the dict *)

Section OrderOfTheDict.
Context {R : Type} `{Arith R}.

Lemma sorted_perm_eq (d1 d2 : list (Z * R)) :
  d1 ≡ₚ d2 -> sorted d1 = sorted d2.
Proof.
  intros Hp. apply (Sorted_unique Z.le); [apply sorted_Sorted..|].
  rewrite !sorted_perm. by rewrite Hp.
Qed.

Lemma prob_of_not_key (d : list (Z * R)) (m : Z) :
  m ∉ d.*1 -> prob_of d m = f0.
Proof.
  unfold prob_of. induction d as [|[k v] d IH]; cbn; intros Hm; [done|].
  destruct (decide (k = m)) as [->|Hne].
  - exfalso. apply Hm. apply elem_of_cons. auto.
  - apply IH. intros Hin. apply Hm. apply elem_of_cons. auto.
Qed.

Lemma prob_of_perm (d1 d2 : list (Z * R)) (m : Z) :
  NoDup (d1.*1) -> d1 ≡ₚ d2 -> prob_of d1 m = prob_of d2 m.
Proof.
  intros Hnd Hp.
  assert (Hnd2 : NoDup (d2.*1)) by (by rewrite <- Hp).
  destruct (decide (m ∈ d1.*1)) as [Hin|Hout].
  - apply list_elem_of_fmap in Hin as ([m' v] & -> & Hin). cbn.
    rewrite (prob_of_NoDup d1 m' v) by done.
    symmetry. apply prob_of_NoDup; [done|]. by rewrite <- Hp.
  - rewrite !prob_of_not_key; [done| |done]. by rewrite <- Hp.
Qed.

Lemma cum_from_ext (d1 d2 : list (Z * R)) (ms : list Z) :
  (forall m, prob_of d1 m = prob_of d2 m) ->
  forall s, cum_from d1 s ms = cum_from d2 s ms.
Proof.
  intros Hp. induction ms as [|m ms IH]; intros s; cbn; [done|].
  by rewrite Hp, IH.
Qed.

Lemma finals_ext (self1 self2 : RobotSimulator R) (dr : nat -> R) (n k : nat) :
  max_pos self1 = max_pos self2 ->
  _moves self1 = _moves self2 ->
  _cum self1 = _cum self2 ->
  forall c, finals self1 dr c n k = finals self2 dr c n k.
Proof.
  intros Hmax Hmoves Hcum. induction k as [|k IH]; intros c; cbn [finals]; [done|].
  rewrite IH. f_equal. unfold final_of. f_equal. f_equal.
  by apply targets_ext.
Qed.

Lemma trace_of_ext (self1 self2 : RobotSimulator R) (dr : nat -> R) (n : nat) :
  max_pos self1 = max_pos self2 ->
  _moves self1 = _moves self2 ->
  _cum self1 = _cum self2 ->
  p_correct_wall self1 = p_correct_wall self2 ->
  p_correct_window self1 = p_correct_window self2 ->
  forall c pos, trace_of self1 dr c n pos = trace_of self2 dr c n pos.
Proof.
  intros Hmax Hmoves Hcum Hpw Hpc.
  induction n as [|n IH]; intros c pos; cbn [trace_of]; [done|].
  unfold sample_of, seen_of. by rewrite Hmax, Hmoves, Hcum, Hpw, Hpc, IH.
Qed.

(** X24.  The order in which the distances were inserted in the dict has no
    influence on the sampler, over any arithmetic: two distributions with the
    same items (and distinct distances) give the same tables [_moves] and
    [_cum], hence the same runs and the same estimate from the same draws. *)
Theorem sampler_ignores_dict_order
    (mx : Z) (d1 d2 : list (Z * R)) (pw pc : R) (self1 self2 : RobotSimulator R)
    (n_steps trials : Z) (g : Rng R) :
  NoDup (d1.*1) ->
  d1 ≡ₚ d2 ->
  __init__ mx (Some d1) pw pc = Ok self1 ->
  __init__ mx (Some d2) pw pc = Ok self2 ->
  _moves self1 = _moves self2
  /\ _cum self1 = _cum self2
  /\ run_single_trace self1 n_steps g = run_single_trace self2 n_steps g
  /\ simulate self1 n_steps trials g = simulate self2 n_steps trials g.
Proof.
  intros Hnd Hp Hinit1 Hinit2.
  pose proof (init_moves_nonempty _ _ _ _ _ Hinit1) as Hne1.
  pose proof (init_moves_nonempty _ _ _ _ _ Hinit2) as Hne2.
  assert (Heff : effective (Some d1) ≡ₚ effective (Some d2)).
  { destruct d1 as [|e1 d1].
    - apply Permutation_nil_l in Hp. by subst d2.
    - destruct d2 as [|e2 d2]; [by apply Permutation_nil_r in Hp|done]. }
  assert (Hndeff : NoDup ((effective (Some d1)).*1)).
  { destruct d1 as [|e1 d1]; [|done].
    cbn. apply (bool_decide_unpack _). reflexivity. }
  rewrite init_spec in Hinit1, Hinit2.
  remember (effective (Some d1)) as e1 eqn:E1.
  remember (effective (Some d2)) as e2 eqn:E2. clear E1 E2.
  injection Hinit1 as <-. injection Hinit2 as <-.
  set (self1 := {| max_pos := mx; move_probs := e1 |}) in *.
  set (self2 := {| max_pos := mx; move_probs := e2 |}) in *.
  assert (Hmoves : _moves self1 = _moves self2) by (by apply sorted_perm_eq).
  assert (Hcum : _cum self1 = _cum self2).
  { cbn [_cum self1 self2]. rewrite (sorted_perm_eq _ _ Heff).
    apply cum_from_ext. intros m. by apply prob_of_perm. }
  split; [done|]. split; [done|]. split.
  - unfold run_single_trace. rewrite !run_steps_trace by done. cbn [app].
    rewrite (targets_ext self1 self2 (draws g) (draws g) (Z.to_nat n_steps)
               eq_refl Hmoves Hcum (cursor g) (cursor g) 0) by done.
    by rewrite (trace_of_ext self1 self2).
  - unfold simulate, bindM. rewrite !run_trials_spec by done.
    by rewrite (finals_ext self1 self2).
Qed.

End OrderOfTheDict.

(** ** The catalog as input of the exact posterior *)

Section CatalogInputs.
Context {R : Type} `{SignLaws R}.

Lemma entry_is_valid_input (d : list (Z * R)) (pw pc : R) (n_steps : Z) :
  d <> [] ->
  sorted d = [0; 1; 2] ->
  Forall (fun e => 0 <= e.1) d ->
  Forall (fun e => not_negative e.2) d ->
  exists self pd,
    __init__ default_max_pos (Some d) pw pc = Ok self
    /\ move_probs self = d
    /\ _moves self = [0; 1; 2]
    /\ compute_exact_posterior self n_steps = Ok pd
    /\ pd.*1 = [0; 1; 2; 3]
    /\ Forall not_negative (pd.*2).
Proof.
  intros Hne Hs Hnn Hpos.
  assert (Heff : effective (Some d) = d) by (by destruct d).
  eexists _, _. rewrite init_spec, Heff. split; [done|].
  split; [done|]. split; [exact Hs|].
  split; [apply compute_exact_posterior_spec; [done|exact Hnn]|].
  split; [apply table_keys|].
  rewrite table_values. apply Forall_fmap, Forall_forall. intros s _.
  by apply posterior_fn_not_negative.
Qed.

(** X26.  Every entry of the catalog is a valid input of the exact
    posterior engine, as [compare_distributions] uses it: the simulator
    [RobotSimulator(move_probs=cfg["movement"], ...)] is constructed, keeps
    the movement distribution of the entry, samples among the distances 0,
    1 and 2, and for every number of steps [compute_exact_posterior]
    returns a table over the positions 0 to 3 none of whose entries is
    negative.  The last entry is the default distribution of
    [RobotSimulator]. *)
Theorem catalog_entries_are_valid_inputs (n_steps : Z) :
  Forall (fun cfg : movement_table.entry R =>
            exists self pd,
              __init__ default_max_pos (Some (movement_table.movement cfg))
                (movement_table.p_correct_wall cfg)
                (movement_table.p_correct_window cfg) = Ok self
              /\ move_probs self = movement_table.movement cfg
              /\ _moves self = [0; 1; 2]
              /\ compute_exact_posterior self n_steps = Ok pd
              /\ pd.*1 = [0; 1; 2; 3]
              /\ Forall not_negative (pd.*2))
         movement_table.distribution_sets
  /\ movement_table.movement <$> last movement_table.distribution_sets
     = Some (default_move_probs (R:=R)).
Proof.
  split; [|reflexivity].
  repeat constructor.
  all: apply entry_is_valid_input;
    [discriminate
    |reflexivity
    |repeat constructor; cbn; lia
    |repeat constructor; apply truediv_not_negative; lia].
Qed.

End CatalogInputs.

(** ** The theorems at concrete inputs *)

Lemma run_single_positions_monotone_bounded_witness :
  exists pos trace g',
    run_single_trace (robot float) 3 draws_a = Ok ((pos, trace), g')
    /\ run_single (robot float) 3 draws_a = Ok (pos, g')
    /\ Sorted Z.le (0 :: trace.*1.*1)
    /\ Forall (fun p => 0 <= p <= max_pos (robot float)) (trace.*1.*1)
    /\ pos = default 0 (last (trace.*1.*1))
    /\ 0 <= pos <= max_pos (robot float).
Proof.
  apply (run_single_positions_monotone_bounded
           default_max_pos None f1 f1 (robot float) 3 draws_a).
  - reflexivity.
  - repeat constructor; cbn; lia.
  - cbn. unfold default_max_pos. lia.
Defined.

Lemma run_single_ignores_perception_witness :
  exists pos trace1 trace2 g1' g2',
    run_single_trace (robot float) 3 draws_a = Ok ((pos, trace1), g1')
    /\ run_single_trace (robot_with (lit 1 2) (lit 1 4)) 3 draws_b
       = Ok ((pos, trace2), g2')
    /\ run_single (robot float) 3 draws_a = Ok (pos, g1')
    /\ run_single (robot_with (lit 1 2) (lit 1 4)) 3 draws_b = Ok (pos, g2')
    /\ trace1.*1.*1 = trace2.*1.*1
    /\ trace1.*1.*1
       = targets (robot float) (draws draws_a) (cursor draws_a) (Z.to_nat 3) 0
    /\ cursor g1' = (cursor draws_a + 2 * Z.to_nat 3)%nat
    /\ cursor g2' = (cursor draws_b + 2 * Z.to_nat 3)%nat.
Proof.
  apply (run_single_ignores_perception
           default_max_pos None f1 f1 (lit 1 2) (lit 1 4)
           (robot float) (robot_with (lit 1 2) (lit 1 4)) 3 draws_a draws_b).
  - reflexivity.
  - reflexivity.
  - intros k Hk. destruct k as [|[|[|k]]]; [reflexivity..|].
    change (Z.to_nat 3) with 3%nat in Hk. lia.
Defined.

Lemma sample_move_inverse_cdf_witness :
  let u := draws draws_a (cursor draws_a) in
  let moves := _moves (robot float) in
  let cum := _cum (robot float) in
  Sorted Z.le moves
  /\ moves ≡ₚ (default_move_probs (R:=float)).*1
  /\ length cum = length moves
  /\ (forall i, (i < length moves)%nat ->
        cum !! i
        = Some (fold_left (fun s m => fadd s (prob_of default_move_probs m))
                          (take (S i) moves) f0))
  /\ exists m,
       _sample_move (robot float) draws_a = Ok (m, advance draws_a 1)
       /\ m ∈ (default_move_probs (R:=float)).*1
       /\ ((exists i c,
              moves !! i = Some m /\ cum !! i = Some c /\ fleb u c = true
              /\ forall j c', (j < i)%nat -> cum !! j = Some c' ->
                              fleb u c' = false)
           \/ ((forall c, c ∈ cum -> fleb u c = false)
               /\ last moves = Some m
               /\ forall m', m' ∈ (default_move_probs (R:=float)).*1 -> m' <= m)).
Proof.
  apply (sample_move_inverse_cdf
           default_max_pos default_move_probs f1 f1 (robot float) draws_a).
  - discriminate.
  - reflexivity.
Defined.

Lemma transition_matrix_entries_witness :
  exists T,
    transition_matrix (robot float) = Ok T
    /\ forall p,
         0 <= p <= max_pos (robot float) ->
         exists row,
           T !! p = Some row
           /\ (forall s, 0 <= s <= max_pos (robot float) ->
                 row !! s = Some (fsum ((moves_to (robot float) p s).*2)))
           /\ mjoin ((fun s => moves_to (robot float) p s)
                       <$> range (max_pos (robot float) + 1))
              ≡ₚ move_probs (robot float).
Proof.
  apply (transition_matrix_entries (robot float)).
  repeat constructor; cbn; lia.
Defined.

Lemma exact_posterior_is_distribution_witness :
  exists pd,
    compute_exact_posterior (robot float) 5 = Ok pd
    /\ pd.*1 = range (max_pos (robot float) + 1)
    /\ (Forall (fun e => not_negative e.2) (move_probs (robot float)) ->
        Forall not_negative (pd.*2)).
Proof.
  apply (exact_posterior_is_distribution (robot float) 5).
  - cbn. unfold default_max_pos. lia.
  - repeat constructor; cbn; lia.
Defined.

Lemma simulate_is_frequency_table_witness :
  exists (ends : list Z) probs,
    simulate (robot float) 3 2 draws_a
    = Ok (probs, advance draws_a (2 * Z.to_nat 3 * Z.to_nat 2))
    /\ length ends = Z.to_nat 2
    /\ (forall j pos,
          ends !! j = Some pos ->
          run_single (robot float) 3 (advance draws_a (2 * Z.to_nat 3 * j))
          = Ok (pos, advance draws_a (2 * Z.to_nat 3 * S j))
          /\ 0 <= pos <= max_pos (robot float))
    /\ probs = (fun pos =>
                  (pos, int_truediv (Z.of_nat (occurrences pos ends)) 2))
                 <$> range (max_pos (robot float) + 1)
    /\ sum_list_with (fun pos => occurrences pos ends)
                     (range (max_pos (robot float) + 1)) = Z.to_nat 2
    /\ Forall not_negative (probs.*2).
Proof.
  apply (simulate_is_frequency_table
           default_max_pos None f1 f1 (robot float) 3 2 draws_a).
  - reflexivity.
  - repeat constructor; cbn; lia.
  - cbn. unfold default_max_pos. lia.
  - lia.
Defined.

Lemma deterministic_estimate_matches_exact_witness :
  exists exact empirical g',
    compute_exact_posterior (robot_moving Qc 1) 3 = Ok exact
    /\ simulate (robot_moving Qc 1) 3 5 draws_q = Ok (empirical, g')
    /\ exact = empirical
    /\ exact = point_mass default_max_pos
                 (Z.min (Z.max 0 3 * 1) default_max_pos)
    /\ Forall2 (fun a b : Z * Qc => a.1 = b.1 /\ close a.2 b.2 = true)
               exact empirical.
Proof.
  apply (deterministic_estimate_matches_exact
           default_max_pos 1 f1 f1 (robot_moving Qc 1) 3 5 draws_q).
  - reflexivity.
  - lia.
  - unfold default_max_pos. lia.
  - lia.
Defined.

Lemma nonpositive_steps_point_mass_witness :
  compute_exact_posterior (robot Qc) (-2)
  = Ok (point_mass (max_pos (robot Qc)) 0)
  /\ simulate (robot Qc) (-2) 4 draws_q
     = Ok (point_mass (max_pos (robot Qc)) 0, draws_q).
Proof.
  apply (nonpositive_steps_point_mass
           default_max_pos None f1 f1 (robot Qc) (-2) 4 draws_q).
  - reflexivity.
  - repeat constructor; cbn; lia.
  - cbn. unfold default_max_pos. lia.
  - lia.
  - lia.
Defined.

Lemma simulate_zero_trials_raises_witness :
  simulate (robot float) 3 0 draws_a = Raise ZeroDivisionError
  /\ forall trials, 1 <= trials ->
       exists probs g', simulate (robot float) 3 trials draws_a = Ok (probs, g').
Proof.
  apply (simulate_zero_trials_raises
           default_max_pos None f1 f1 (robot float) 3 draws_a).
  - reflexivity.
  - cbn. unfold default_max_pos. lia.
Defined.

(** ** The further properties at concrete inputs *)

Lemma run_single_trace_entries_witness :
  exists pos trace,
    run_single_trace (robot float) 3 draws_a
    = Ok ((pos, trace), advance draws_a (2 * Z.to_nat 3))
    /\ length trace = Z.to_nat 3
    /\ forall i t tl pl,
         trace !! i = Some (t, tl, pl) ->
         exists m,
           _sample_move (robot float) (advance draws_a (2 * i))
           = Ok (m, advance draws_a (2 * i + 1))
           /\ t = Z.min (position_before (trace.*1.*1) i + m)
                        (max_pos (robot float))
           /\ tl = true_label_at t
           /\ perceive_label (robot float) tl (advance draws_a (2 * i + 1))
              = Ok (pl, advance draws_a (2 * i + 2)).
Proof.
  apply (run_single_trace_entries
           default_max_pos None f1 f1 (robot float) 3 draws_a).
  reflexivity.
Defined.

Lemma reliable_sensor_reads_truth_witness :
  exists pos trace g',
    run_single_trace (robot float) 3 draws_a = Ok ((pos, trace), g')
    /\ Forall (fun e : trace_entry =>
                 e.2 = true_label_at e.1.1 /\ e.1.2 = true_label_at e.1.1)
              trace.
Proof.
  apply (reliable_sensor_reads_truth
           default_max_pos None f1 f1 (robot float) 3 draws_a).
  - reflexivity.
  - intros k Hk. change (Z.to_nat 3) with 3%nat in Hk.
    destruct k as [|[|[|k]]]; [split; reflexivity..|lia].
Defined.

Lemma run_single_trace_extends_witness :
  exists pos1 tr1 g1 pos2 tr2 g2,
    run_single_trace (robot float) 1 draws_a = Ok ((pos1, tr1), g1)
    /\ run_single_trace (robot float) (1 + 2) draws_a = Ok ((pos2, tr2), g2)
    /\ tr1 = take (Z.to_nat 1) tr2
    /\ run_steps (robot float) (Z.to_nat 2) pos1 tr1 g1 = Ok ((pos2, tr2), g2).
Proof.
  apply (run_single_trace_extends
           default_max_pos None f1 f1 (robot float) 1 2 draws_a).
  - reflexivity.
  - lia.
  - lia.
Defined.

Lemma build_cdf_is_cumulative_witness :
  (StronglySorted Z.lt (_moves (robot_unsorted float))
   /\ (forall i m,
         _moves (robot_unsorted float) !! i = Some m ->
         _cum (robot_unsorted float) !! i
         = Some (cdf_le (move_probs (robot_unsorted float)) m))
   /\ last (_cum (robot_unsorted float))
      = Some (fsum (prob_of (move_probs (robot_unsorted float))
                      <$> _moves (robot_unsorted float)))
   /\ (AddLaws float ->
       Forall (fun e => fleb f0 e.2 = true) (move_probs (robot_unsorted float)) ->
       ascending (_cum (robot_unsorted float))
       /\ Forall (fun c => fleb f0 c = true) (_cum (robot_unsorted float))))
  /\ ascending (_cum (robot_unsorted Qc))
  /\ Forall (fun c => fleb f0 c = true) (_cum (robot_unsorted Qc)).
Proof.
  split.
  - apply (build_cdf_is_cumulative
             default_max_pos (Some unsorted_move_probs) f1 f1
             (robot_unsorted float)).
    + reflexivity.
    + apply (bool_decide_unpack _). reflexivity.
  - apply (build_cdf_is_cumulative
             default_max_pos (Some unsorted_move_probs) f1 f1
             (robot_unsorted Qc)).
    + reflexivity.
    + apply (bool_decide_unpack _). reflexivity.
    + exact Qc_add_laws.
    + repeat constructor.
Defined.

Lemma sample_move_interval_witness :
  let u := draws draws_c (cursor draws_c) in
  (_sample_move (robot_unsorted float) draws_c = Ok (2, advance draws_c 1)
   <-> fleb u (cdf_lt (move_probs (robot_unsorted float)) 2) = false
       /\ fleb u (cdf_le (move_probs (robot_unsorted float)) 2) = true)
  /\ (2 ∈ (move_probs (robot_unsorted float)).*1 ->
      cdf_le (move_probs (robot_unsorted float)) 2
      = fadd (cdf_lt (move_probs (robot_unsorted float)) 2)
             (prob_of (move_probs (robot_unsorted float)) 2)).
Proof.
  apply (sample_move_interval
           default_max_pos (Some unsorted_move_probs) f1 f1
           (robot_unsorted float) draws_c 2).
  - reflexivity.
  - apply (bool_decide_unpack _). reflexivity.
  - repeat constructor.
  - reflexivity.
  - intros c [= <-]. reflexivity.
Defined.

Lemma sample_move_out_of_range_witness :
  let u := draws draws_0 (cursor draws_0) in
  exists m,
    _sample_move (robot_unsorted float) draws_0 = Ok (m, advance draws_0 1)
    /\ m ∈ (move_probs (robot_unsorted float)).*1
    /\ (fleb u f0 = true ->
        forall m', m' ∈ (move_probs (robot_unsorted float)).*1 -> m <= m')
    /\ ((forall c, last (_cum (robot_unsorted float)) = Some c ->
                   fleb u c = false) ->
        forall m', m' ∈ (move_probs (robot_unsorted float)).*1 -> m' <= m).
Proof.
  apply (sample_move_out_of_range
           default_max_pos (Some unsorted_move_probs) f1 f1
           (robot_unsorted float) draws_0).
  - reflexivity.
  - repeat constructor.
  - repeat constructor.
Defined.

Lemma simulate_consumes_draws_witness :
  exists probs,
    simulate (robot float) 3 2 draws_a
    = Ok (probs, advance draws_a (2 * Z.to_nat 3 * Z.to_nat 2))
    /\ probs.*1 = range (max_pos (robot float) + 1).
Proof.
  apply (simulate_consumes_draws
           default_max_pos None f1 f1 (robot float) 3 2 draws_a).
  - reflexivity.
  - lia.
Defined.

Lemma simulate_negative_trials_witness :
  simulate (robot float) 3 (-5) draws_a
  = Ok ((fun pos => (pos, int_truediv 0 (-5)))
          <$> range (max_pos (robot float) + 1), draws_a).
Proof.
  apply (simulate_negative_trials
           default_max_pos None f1 f1 (robot float) 3 (-5) draws_a).
  - reflexivity.
  - lia.
Defined.

Lemma negative_max_pos_witness :
  simulate (robot_on float (-1)) 3 0 draws_a
  = Ok ([], advance draws_a (2 * Z.to_nat 3 * Z.to_nat 0))
  /\ compute_exact_posterior (robot_on float (-1)) 3 = Raise IndexError.
Proof.
  apply (negative_max_pos (-1) None f1 f1 (robot_on float (-1)) 3 0 draws_a).
  - reflexivity.
  - lia.
Defined.

Lemma exact_posterior_key_error_witness :
  (compute_exact_posterior (robot_moving float (-1)) 3 = Raise KeyError
   <-> Exists (fun e => e.1 < 0) (move_probs (robot_moving float (-1))))
  /\ (Forall (fun e => 0 <= e.1) (move_probs (robot_moving float (-1))) ->
      exists pd,
        compute_exact_posterior (robot_moving float (-1)) 3 = Ok pd
        /\ pd.*1 = range (max_pos (robot_moving float (-1)) + 1)).
Proof.
  apply (exact_posterior_key_error (robot_moving float (-1)) 3).
  cbn. unfold default_max_pos. lia.
Defined.

Lemma backward_moves_lose_all_mass_witness :
  run_single (robot_moving Qc (-1)) 2 draws_q
  = Ok (2 * -1, advance draws_q (2 * Z.to_nat 2))
  /\ simulate (robot_moving Qc (-1)) 2 3 draws_q
     = Ok ((fun pos => (pos, f0)) <$> range (default_max_pos + 1),
           advance draws_q (2 * Z.to_nat 2 * Z.to_nat 3))
  /\ compute_exact_posterior (robot_moving Qc (-1)) 2 = Raise KeyError.
Proof.
  apply (backward_moves_lose_all_mass
           default_max_pos (-1) f1 f1 (robot_moving Qc (-1)) 2 3 draws_q).
  - reflexivity.
  - lia.
  - unfold default_max_pos. lia.
  - lia.
  - lia.
Defined.

Lemma exact_posterior_recurrence_witness :
  exists pd pd',
    compute_exact_posterior (robot float) 2 = Ok pd
    /\ compute_exact_posterior (robot float) (2 + 1) = Ok pd'
    /\ pd' = (fun s => (s, next_entry (robot float) pd s))
               <$> range (max_pos (robot float) + 1).
Proof.
  apply (exact_posterior_recurrence (robot float) 2).
  - cbn. unfold default_max_pos. lia.
  - repeat constructor; cbn; lia.
  - lia.
Defined.

Lemma simulate_pools_batches_witness :
  exists (c1 c2 : Z -> nat) p1 g1 p2 g2 p,
    simulate (robot float) 1 2 draws_a = Ok (p1, g1)
    /\ simulate (robot float) 1 1 g1 = Ok (p2, g2)
    /\ simulate (robot float) 1 (2 + 1) draws_a = Ok (p, g2)
    /\ p1 = (fun pos => (pos, int_truediv (Z.of_nat (c1 pos)) 2))
              <$> range (max_pos (robot float) + 1)
    /\ p2 = (fun pos => (pos, int_truediv (Z.of_nat (c2 pos)) 1))
              <$> range (max_pos (robot float) + 1)
    /\ p = (fun pos => (pos, int_truediv (Z.of_nat (c1 pos + c2 pos)) (2 + 1)))
             <$> range (max_pos (robot float) + 1).
Proof.
  apply (simulate_pools_batches
           default_max_pos None f1 f1 (robot float) 1 2 1 draws_a).
  - reflexivity.
  - lia.
  - lia.
Defined.

Lemma transition_matrix_triangular_witness :
  exists T,
    transition_matrix (robot float) = Ok T
    /\ (forall p s, 0 <= s < p -> p <= max_pos (robot float) ->
          exists row, T !! p = Some row /\ row !! s = Some f0)
    /\ (exists row, T !! max_pos (robot float) = Some row
                    /\ row !! max_pos (robot float)
                       = Some (fsum ((move_probs (robot float)).*2))).
Proof.
  apply (transition_matrix_triangular (robot float)).
  - cbn. unfold default_max_pos. lia.
  - repeat constructor; cbn; lia.
Defined.

Lemma single_trial_is_point_mass_witness :
  exists pos g',
    run_single (robot Qc) 3 draws_q = Ok (pos, g')
    /\ simulate (robot Qc) 3 1 draws_q
       = Ok (point_mass (max_pos (robot Qc)) pos, g').
Proof.
  apply (single_trial_is_point_mass
           default_max_pos None f1 f1 (robot Qc) 3 draws_q).
  reflexivity.
Defined.

Lemma sampler_ignores_dict_order_witness :
  _moves (robot float) = _moves (robot_reordered float)
  /\ _cum (robot float) = _cum (robot_reordered float)
  /\ run_single_trace (robot float) 3 draws_a
     = run_single_trace (robot_reordered float) 3 draws_a
  /\ simulate (robot float) 3 2 draws_a
     = simulate (robot_reordered float) 3 2 draws_a.
Proof.
  apply (sampler_ignores_dict_order
           default_max_pos default_move_probs reordered_move_probs f1 f1
           (robot float) (robot_reordered float) 3 2 draws_a).
  - apply (bool_decide_unpack _). reflexivity.
  - eapply perm_trans; [apply perm_skip, perm_swap|apply perm_swap].
  - reflexivity.
  - reflexivity.
Defined.

Lemma catalog_entries_are_valid_inputs_witness :
  Forall (fun cfg : movement_table.entry float =>
            exists self pd,
              __init__ default_max_pos (Some (movement_table.movement cfg))
                (movement_table.p_correct_wall cfg)
                (movement_table.p_correct_window cfg) = Ok self
              /\ move_probs self = movement_table.movement cfg
              /\ _moves self = [0; 1; 2]
              /\ compute_exact_posterior self 3 = Ok pd
              /\ pd.*1 = [0; 1; 2; 3]
              /\ Forall not_negative (pd.*2))
         movement_table.distribution_sets
  /\ movement_table.movement <$> last movement_table.distribution_sets
     = Some (default_move_probs (R:=float)).
Proof.
  apply (catalog_entries_are_valid_inputs (R:=float) 3).
Defined.

(** ** Where the code departs from the specification *)

(** C3 as stated fails in binary64.  With the default distribution, one
    step and ten runs of which seven stay at 0, two reach 1 and one reaches
    2, the estimate is [{0: 0.7, 1: 0.2, 2: 0.1, 3: 0.0}], and
    [0.7 + 0.2 + 0.1 + 0.0] is [0.9999999999999999], not [1.0]. *)
Lemma simulate_sum_not_exactly_one :
  exists g',
    simulate (robot float) 1 10 uneven_draws
    = Ok ([(0, lit 7 10); (1, lit 2 10); (2, lit 1 10); (3, f0)], g')
    /\ fsum ([(0, lit 7 10); (1, lit 2 10); (2, lit 1 10); (3, f0 : float)].*2)
       = 0x1.fffffffffffffp-1%float
    /\ feqb (fsum ([(0, lit 7 10); (1, lit 2 10); (2, lit 1 10);
                    (3, f0 : float)].*2)) f1 = false.
Proof.
  eexists. split; [|split]; vm_compute; reflexivity.
Qed.

(** C7 as stated fails: a negative number of steps raises nothing, in
    either operation. *)
Lemma negative_steps_do_not_raise :
  compute_exact_posterior (robot float) (-1) = Ok (point_mass 3 0)
  /\ simulate (robot float) (-1) 1 draws_a = Ok (point_mass 3 0, draws_a)
  /\ forall e,
       compute_exact_posterior (robot float) (-1) <> Raise e
       /\ simulate (robot float) (-1) 1 draws_a <> Raise e.
Proof.
  assert (H1 : compute_exact_posterior (robot float) (-1) = Ok (point_mass 3 0))
    by (vm_compute; reflexivity).
  assert (H2 : simulate (robot float) (-1) 1 draws_a
               = Ok (point_mass 3 0, draws_a)) by (vm_compute; reflexivity).
  split; [exact H1|]. split; [exact H2|].
  intros e. rewrite H1, H2. split; discriminate.
Qed.

(** C8 as stated fails: with [trials = 0] the exception is the
    [ZeroDivisionError] of the division, not the exception of a rejected
    argument. *)
Lemma zero_trials_is_a_division_error :
  simulate (robot float) 5 0 draws_a = Raise ZeroDivisionError
  /\ simulate (robot float) 5 0 draws_a <> Raise ValueError.
Proof.
  assert (H : simulate (robot float) 5 0 draws_a = Raise ZeroDivisionError)
    by (vm_compute; reflexivity).
  split; [exact H|]. rewrite H. discriminate.
Qed.

(** C1 as stated fails in binary64.  The distribution
    [{0: 0.5, 1: 0.4999999999}] has no negative probability and meets its
    invariant: its sum is within 1e-9 of 1.  After 20 steps on positions 0
    to 3 the entries of the exact posterior sum to 0.9999999979999996, which
    is not within 1e-9 of 1. *)
Lemma exact_posterior_sum_off_tolerance :
  __init__ default_max_pos (Some near_one_move_probs) f1 f1
  = Ok (robot_near_one float)
  /\ Forall (fun e : Z * float => fleb f0 e.2 = true) near_one_move_probs
  /\ fltb (fabs (fsub (fsum ((near_one_move_probs (R:=float)).*2)) f1))
          (lit 1 1000000000) = true
  /\ exists pd,
       compute_exact_posterior (robot_near_one float) 20 = Ok pd
       /\ fsum (pd.*2) = 0x1.ffffffeed1f3ep-1%float
       /\ fltb (fabs (fsub (fsum (pd.*2)) f1)) (lit 1 1000000000) = false.
Proof.
  split; [reflexivity|]. split; [by repeat constructor|].
  split; [by vm_compute|].
  eexists. split; [vm_compute; reflexivity|]. split; by vm_compute.
Qed.

(** C2 as stated fails in binary64.  The probabilities of the default
    distribution [{0: 0.1, 1: 0.7, 2: 0.2}] sum to exactly 1.0, and row 2 of
    the matrix is [{0: 0.0, 1: 0.0, 2: 0.1, 3: 0.8999999999999999}], which
    sums to 0.9999999999999999. *)
Lemma transition_row_sum_not_one :
  feqb (fsum ((move_probs (robot float)).*2)) f1 = true
  /\ (T <- transition_matrix (robot float);;
      row <- map_getitem T 2;;
      Ok ((fun s => default f0 (row !! s))
            <$> range (max_pos (robot float) + 1)))
     = Ok [f0; f0; lit 1 10; fadd (fadd f0 (lit 7 10)) (lit 2 10)]
  /\ fsum [f0; f0; lit 1 10; fadd (fadd f0 (lit 7 10)) (lit 2 10) : float]
     = 0x1.fffffffffffffp-1%float
  /\ feqb (fsum [f0; f0; lit 1 10; fadd (fadd f0 (lit 7 10)) (lit 2 10) : float])
          f1 = false.
Proof. repeat split; vm_compute; reflexivity. Qed.
